(** * tinypy: the statement evaluator of [AST/stmt.py]

    A shallow embedding of the tree-walking evaluator: the statement nodes
    of [AST/stmt.py], the namespaces they read and write, the process-wide
    [CurrentNamespace] pointer and the closures ([container]) that
    [FunctionDef.eval] stores in memory.

    Python objects with identity (namespaces) live in a heap and are named
    by their address, so that the aliasing between a closure, the names
    that are bound to it and the current-namespace pointer is kept.
    Exceptions leave the state they were raised in, as in Python. *)

From Stdlib Require Import ZArith Lia DecimalString.
From stdpp Require Import gmap strings list fin_maps.

Set Warnings "-register-all".

(** ** Abstract syntax *)

(** [Name.Context]. *)
Inductive NameContext := Load | Store.

(** The ten binary operator classes that [AugAssignStmt.opTable] names. *)
Inductive binop :=
| Add | Sub | Mult | Div | Mod | BitAnd | BitOr | BitXor | Lshift | Rshift.

(** Modelled from the spec: the expression nodes of [AST.expr], which the
    statements import ([Name], the operator classes) but which is not part
    of the sources at hand. [Num] and [NameConstant] are the literals,
    [CallExpr] is the call of a callable value on argument expressions. *)
Inductive expr :=
| Num (n : Z)
| NameConstant (b : bool)
| Name (id : string) (ctx : NameContext)
| BinOp (op : binop) (left right : expr)
| CallExpr (func : expr) (args : list expr).

Definition AddOp := BinOp Add.
Definition SubOp := BinOp Sub.
Definition MultOp := BinOp Mult.
Definition DivOp := BinOp Div.
Definition ModOp := BinOp Mod.
Definition BitAndOp := BinOp BitAnd.
Definition BitOrOp := BinOp BitOr.
Definition BitXorOp := BinOp BitXor.
Definition LshiftOp := BinOp Lshift.
Definition RshiftOp := BinOp Rshift.

(** The statement nodes. A [WhileStmt] object has the two attributes that
    its [__init__] stores, [test] and [body]. *)
Inductive stmt :=
| FunctionDef (name : string) (args : list string) (body : list stmt)
| IfStmt (test : expr) (body orelse : list stmt)
| WhileStmt (test : expr) (body : list stmt)
| AssignStmt (target value : expr)
| ReturnStmt (e : option expr)
| PassStmt
| ContinueStmt
| BreakStmt.

(** [WhileStmt.__init__(test, body, orelse)]. *)
Definition WhileStmt_init (test : expr) (body orelse : list stmt) : stmt :=
  WhileStmt test body.

(** [AugAssignStmt.opTable]. *)
Definition opTable : list (string * (expr -> expr -> expr)) :=
  [ ("+=", AddOp); ("-=", SubOp); ("*=", MultOp); ("/=", DivOp);
    ("%=", ModOp); ("&=", BitAndOp); ("|=", BitOrOp); ("^=", BitXorOp);
    ("<<=", LshiftOp); (">>=", RshiftOp) ].

Fixpoint opTable_get (tbl : list (string * (expr -> expr -> expr)))
    (op : string) : option (expr -> expr -> expr) :=
  match tbl with
  | [] => None
  | (k, cls) :: tbl' => if String.eqb k op then Some cls else opTable_get tbl' op
  end.

(** [AugAssignStmt.__init__(name, value, op)]: the node that the
    constructor builds, or [None] where [opTable[op]] raises [KeyError]. *)
Definition AugAssignStmt_init (name : string) (value : expr) (op : string)
    : option stmt :=
  let nameNodeLoad := Name name Load in
  let nameNodeStore := Name name Store in
  match opTable_get opTable op with
  | Some cls =>
      let binOp := cls nameNodeLoad value in
      Some (AssignStmt nameNodeStore binOp)
  | None => None
  end.

(** ** Values, namespaces and the interpreter state *)

(** Address of a namespace object. *)
Abbreviation loc := nat.

(** The closure [container] that [FunctionDef.eval] builds: it captures the
    node ([name], [args], [body]) and the two local variables [namespace]
    and [previousNamespace] of the evaluation that defined it. *)
Record closure := Closure {
  fname : string;
  fargs : list string;
  fbody : list stmt;
  namespace : loc;
  previousNamespace : loc
}.

Inductive value :=
| VNone
| VBool (b : bool)
| VInt (n : Z)
| VStr (s : string)
| VFun (c : closure).

(** Modelled from the spec: [runtime.Memory.Namespace], a mapping from
    names to values with an optional reference to the enclosing
    namespace. *)
Record Namespace := mkNamespace {
  bindings : gmap string value;
  outerScope : option loc
}.

Record state := mkState {
  heap : list Namespace;
  CurrentNamespace : loc
}.

(** [runtime.Errors.TypeError(message)], the unbound-name error of
    [Namespace] lookup, and the errors that the host raises by itself
    (operators on unsuitable operands, calling a value that is not
    callable). *)
Inductive error :=
| TypeError (message : string)
| NameError (name : string)
| HostError (message : string).

(** ** Control-flow marks and statement results *)

Inductive MarkType := Return | Break | Continue | Pass.

Record ControlFlowMark := Mark {
  type : MarkType;
  toEval : option expr
}.

(** What [stmt.eval()] returns: [None], a [ControlFlowMark] or a list. *)
Inductive stmt_result :=
| RNone
| RMark (m : ControlFlowMark)
| RList (items : list stmt_result).

(** ** The evaluation monad: state passing with exceptions *)

Inductive outcome (A : Type) :=
| Ok (a : A)
| Raise (e : error)
| OutOfFuel.
Arguments Ok {A} a.
Arguments Raise {A} e.
Arguments OutOfFuel {A}.

Definition M (A : Type) : Type := state -> outcome A * state.

Definition ret {A} (a : A) : M A := fun s => (Ok a, s).
Definition raise {A} (e : error) : M A := fun s => (Raise e, s).
Definition timeout {A} : M A := fun s => (OutOfFuel, s).

Definition bind {A B} (c : M A) (k : A -> M B) : M B :=
  fun s =>
    match c s with
    | (Ok a, s') => k a s'
    | (Raise e, s') => (Raise e, s')
    | (OutOfFuel, s') => (OutOfFuel, s')
    end.

Notation "'let*' x ':=' c 'in' k" := (bind c (fun x => k))
  (at level 10, x pattern, c at level 100, k at level 200).

Definition get_current : M loc := fun s => (Ok (CurrentNamespace s), s).
Definition set_current (i : loc) : M unit :=
  fun s => (Ok tt, mkState (heap s) i).
Definition modify_heap (f : list Namespace -> list Namespace) : M unit :=
  fun s => (Ok tt, mkState (f (heap s)) (CurrentNamespace s)).

(** ** Namespaces *)

(** Modelled from the spec: [Namespace.set(name, value)] inserts or
    overwrites in the namespace's own bindings only. *)
Definition ns_set (i : loc) (name : string) (v : value)
    (h : list Namespace) : list Namespace :=
  alter (fun ns => mkNamespace (<[name := v]> (bindings ns)) (outerScope ns)) i h.

(** Modelled from the spec: lookup searches the namespace's own bindings
    and otherwise delegates to its outer scope; [depth] bounds the length
    of the chain that is followed. *)
Fixpoint ns_get (depth : nat) (h : list Namespace) (i : loc) (name : string)
    : option value :=
  match depth with
  | 0 => None
  | S d =>
      match h !! i with
      | None => None
      | Some ns =>
          match bindings ns !! name with
          | Some v => Some v
          | None =>
              match outerScope ns with
              | Some o => ns_get d h o name
              | None => None
              end
          end
      end
  end.

(** [Namespace(outerScope=o)]: a new object at a fresh address. *)
Definition ns_new (o : loc) : M loc :=
  fun s => (Ok (length (heap s)),
            mkState (heap s ++ [mkNamespace ∅ (Some o)]) (CurrentNamespace s)).

Definition lookup_current (name : string) : M value :=
  fun s =>
    match ns_get (length (heap s)) (heap s) (CurrentNamespace s) name with
    | Some v => (Ok v, s)
    | None => (Raise (NameError name), s)
    end.

(** ** The evaluator *)

(** [v == True] in the host language: [bool] is a subclass of [int] there,
    so the integer 1 compares equal to [True]; no other integer, and no
    string, function or [None], does. *)
Definition eq_True (v : value) : bool :=
  match v with
  | VBool b => b
  | VInt n => Z.eqb n 1
  | _ => false
  end.

(** [isinstance(r, ControlFlowMark) and r.type != Pass]. *)
Definition interrupts (r : stmt_result) : bool :=
  match r with
  | RMark m => match type m with Pass => false | _ => true end
  | _ => false
  end.

(** [result += evalResult] for a list, [result.append(evalResult)]
    otherwise. *)
Definition accumulate (result : list stmt_result) (evalResult : stmt_result) : list stmt_result :=
  match evalResult with
  | RList l => result ++ l
  | _ => result ++ [evalResult]
  end.

(** The [for] loop of [IfStmt.eval] over the chosen branch. *)
Fixpoint if_for (ev : stmt -> M stmt_result) (stmts : list stmt)
    (result : list stmt_result) : M stmt_result :=
  match stmts with
  | [] => ret (RList result)
  | st :: rest =>
      let* evalResult := ev st in
      if interrupts evalResult then ret evalResult
      else if_for ev rest (accumulate result evalResult)
  end.

(** How the inner [for] loop of [WhileStmt.eval] ends: it runs through or
    is left by [break], with [shouldBreak] and the list accumulated so far,
    or the whole method returns a mark. *)
Inductive for_exit :=
| ForDone (shouldBreak : bool) (result : list stmt_result)
| ForReturn (evalResult : stmt_result).

(** The inner [for] loop of [WhileStmt.eval]. *)
Fixpoint while_for (ev : stmt -> M stmt_result) (body : list stmt)
    (result : list stmt_result) : M for_exit :=
  match body with
  | [] => ret (ForDone false result)
  | st :: rest =>
      let* evalResult := ev st in
      match evalResult with
      | RMark m =>
          match type m with
          | Break => ret (ForDone true result)
          | Continue => ret (ForDone false result)
          | Pass => while_for ev rest (accumulate result evalResult)
          | Return => ret (ForReturn evalResult)
          end
      | _ => while_for ev rest (accumulate result evalResult)
      end
  end.

(** The [for] loop of [container] over the function body; its value is the
    [returnValue] that the loop leaves. *)
Fixpoint container_for (ev : stmt -> M stmt_result) (evx : expr -> M value)
    (body : list stmt) : M value :=
  match body with
  | [] => ret VNone
  | st :: rest =>
      let* res := ev st in
      match res with
      | RMark m =>
          match type m with
          | Return =>
              match toEval m with
              | Some e => evx e
              | None => ret VNone
              end
          | _ => container_for ev evx rest
          end
      | _ => container_for ev evx rest
      end
  end.

(** ["%d" % n]. *)
Definition decimal (n : nat) : string := NilEmpty.string_of_uint (Nat.to_uint n).

Definition arity_message (name : string) (expected given : nat) : string :=
  name +:+ "() takes " +:+ decimal expected
       +:+ " positional arguments but " +:+ decimal given +:+ " were given".

(** [for pair in zip(self.args, args): namespace.set(pair[0], pair[1])]. *)
Definition bind_args (i : loc) (params : list string) (args : list value)
    (h : list Namespace) : list Namespace :=
  fold_left (fun h pair => ns_set i (fst pair) (snd pair) h) (zip params args) h.

(** The closure [container], called on the argument list; [ev] and [evx] evaluate the statements
    and expressions that the body reaches. No exception is caught: the
    assignments to [CurrentNamespace] are the two that the source has. *)
Definition container (ev : stmt -> M stmt_result) (evx : expr -> M value)
    (c : closure) (args : list value) : M value :=
  let* _ := set_current (namespace c) in
  if negb (Nat.eqb (length args) (length (fargs c))) then
    raise (TypeError (arity_message (fname c) (length (fargs c)) (length args)))
  else
    let* _ := modify_heap (bind_args (namespace c) (fargs c) args) in
    let* returnValue := container_for ev evx (fbody c) in
    let* _ := set_current (previousNamespace c) in
    ret returnValue.

Fixpoint mapM {A B} (f : A -> M B) (l : list A) : M (list B) :=
  match l with
  | [] => ret []
  | a :: l' =>
      let* b := f a in
      let* bs := mapM f l' in
      ret (b :: bs)
  end.

Section Evaluator.

(** The arithmetic of the operator nodes belongs to [AST.expr] and to the
    host's numbers; the evaluator is parametric in it. An operator
    yields a value or raises. *)
Variable apply_binop : binop -> value -> value -> error + value.

Definition lift_binop (r : error + value) : M value :=
  match r with
  | inr v => ret v
  | inl e => raise e
  end.

(** Modelled from the spec: [eval_expr], the [eval] of the expression
    nodes, which [AST.expr] defines. A [Name] in load context is resolved
    through the current namespace, in store context it yields the bare
    identifier; the operands of an operator are evaluated left first; a
    call evaluates the callee and the arguments and invokes the callable.

    [eval_stmt] is the [eval] method of each statement node of
    [AST/stmt.py], and [eval_while] the [while] loop of [WhileStmt.eval]
    with the [result] list it has accumulated. An assignment whose target
    does not evaluate to a name string is outside the input contract of
    the evaluator and raises here. Each nested evaluation consumes fuel;
    a loop consumes fuel for each iteration. *)
Fixpoint eval_expr (fuel : nat) (e : expr) {struct fuel} : M value :=
  match fuel with
  | 0 => timeout
  | S n =>
      match e with
      | Num z => ret (VInt z)
      | NameConstant b => ret (VBool b)
      | Name id Load => lookup_current id
      | Name id Store => ret (VStr id)
      | BinOp op l r =>
          let* a := eval_expr n l in
          let* b := eval_expr n r in
          lift_binop (apply_binop op a b)
      | CallExpr func args =>
          let* f := eval_expr n func in
          let* evalArgs := mapM (eval_expr n) args in
          match f with
          | VFun c => container (eval_stmt n) (eval_expr n) c evalArgs
          | _ => raise (HostError "object is not callable")
          end
      end
  end
with eval_stmt (fuel : nat) (st : stmt) {struct fuel} : M stmt_result :=
  match fuel with
  | 0 => timeout
  | S n =>
      match st with
      | FunctionDef name args body =>
          let* previousNamespace := get_current in
          let* namespace := ns_new previousNamespace in
          let* _ := modify_heap
                      (ns_set previousNamespace name
                         (VFun (Closure name args body namespace previousNamespace))) in
          ret RNone
      | IfStmt test body orelse =>
          let* test := eval_expr n test in
          if_for (eval_stmt n) (if eq_True test then body else orelse) []
      | WhileStmt test body => eval_while n test body []
      | AssignStmt target value =>
          let* lValue := eval_expr n target in
          let* rValue := eval_expr n value in
          match lValue with
          | VStr name =>
              let* cur := get_current in
              let* _ := modify_heap (ns_set cur name rValue) in
              ret RNone
          | _ => raise (HostError "assignment target is not a name")
          end
      | ReturnStmt e => ret (RMark (Mark Return e))
      | PassStmt => ret (RMark (Mark Pass None))
      | ContinueStmt => ret (RMark (Mark Continue None))
      | BreakStmt => ret (RMark (Mark Break None))
      end
  end
with eval_while (fuel : nat) (test : expr) (body : list stmt)
    (result : list stmt_result) {struct fuel} : M stmt_result :=
  match fuel with
  | 0 => timeout
  | S n =>
      let* t := eval_expr n test in
      if eq_True t then
        let* x := while_for (eval_stmt n) body result in
        match x with
        | ForReturn evalResult => ret evalResult
        | ForDone true result' => ret (RList result')
        | ForDone false result' => eval_while n test body result'
        end
      else ret (RList result)
  end.

End Evaluator.

(** ** A concrete instance for the examples *)

(** Integer arithmetic of the host for the operators whose result is an
    integer ([%] takes the sign of the divisor, shifts by a negative count
    raise). True division yields a float there and is left out. *)
Definition int_binop (op : binop) (a b : value) : error + value :=
  match a, b with
  | VInt x, VInt y =>
      match op with
      | Add => inr (VInt (x + y))
      | Sub => inr (VInt (x - y))
      | Mult => inr (VInt (x * y))
      | Div => inl (HostError "float results are not modelled")
      | Mod => if Z.eqb y 0 then inl (HostError "integer modulo by zero")
               else inr (VInt (x mod y))
      | BitAnd => inr (VInt (Z.land x y))
      | BitOr => inr (VInt (Z.lor x y))
      | BitXor => inr (VInt (Z.lxor x y))
      | Lshift => if Z.ltb y 0 then inl (HostError "negative shift count")
                  else inr (VInt (Z.shiftl x y))
      | Rshift => if Z.ltb y 0 then inl (HostError "negative shift count")
                  else inr (VInt (Z.shiftr x y))
      end
  | _, _ => inl (HostError "unsupported operand type(s)")
  end.

(** The state at program start: the global namespace, which is current. *)
Definition init_state : state := mkState [mkNamespace ∅ None] 0.

(** Evaluate a sequence of top-level statements, dropping their results. *)
Fixpoint exec (ab : binop -> value -> value -> error + value) (fuel : nat)
    (prog : list stmt) (s : state) : outcome unit * state :=
  match prog with
  | [] => (Ok tt, s)
  | st :: rest =>
      match eval_stmt ab fuel st s with
      | (Ok _, s') => exec ab fuel rest s'
      | (Raise e, s') => (Raise e, s')
      | (OutOfFuel, s') => (OutOfFuel, s')
      end
  end.

(** The value of [name] as the current namespace resolves it. *)
Definition resolve (s : state) (name : string) : option value :=
  ns_get (length (heap s)) (heap s) (CurrentNamespace s) name.

(** The value that namespace [i] itself binds to [name]. *)
Definition own_binding (s : state) (i : loc) (name : string) : option value :=
  match heap s !! i with
  | Some ns => bindings ns !! name
  | None => None
  end.

(** ** Vocabulary of the statements below *)

(** [isinstance(r, ControlFlowMark) and r.type == Return]. *)
Definition is_return (r : stmt_result) : bool :=
  match r with
  | RMark m => match type m with Return => true | _ => false end
  | _ => false
  end.

(** The statements of [l] evaluated in order with [ev], provided each one
    returns normally with a result on which [stop] is false: their results
    in order, and the state reached. *)
Fixpoint run_through (ev : stmt -> M stmt_result) (stop : stmt_result -> bool)
    (l : list stmt) (s : state) : option (list stmt_result * state) :=
  match l with
  | [] => Some ([], s)
  | st :: rest =>
      match ev st s with
      | (Ok r, s1) =>
          if stop r then None
          else match run_through ev stop rest s1 with
               | Some (rs, s2) => Some (r :: rs, s2)
               | None => None
               end
      | _ => None
      end
  end.

(** [k] iterations of the [while] loop that end without [break] and
    without returning, each evaluated with fuel [n]: the accumulated list
    and the state before the next test. *)
Fixpoint while_rounds (ab : binop -> value -> value -> error + value)
    (n k : nat) (test : expr) (body : list stmt)
    (result : list stmt_result) (s : state)
    : option (list stmt_result * state) :=
  match k with
  | 0 => Some (result, s)
  | S k' =>
      match eval_expr ab n test s with
      | (Ok t, s1) =>
          if eq_True t then
            match while_for (eval_stmt ab n) body result s1 with
            | (Ok (ForDone false result'), s2) =>
                while_rounds ab n k' test body result' s2
            | _ => None
            end
          else None
      | _ => None
      end
  end.

(** A computation [c'] that agrees with [c] wherever [c] does not run out
    of fuel. *)
Definition fuel_le {A} (c c' : M A) : Prop :=
  forall s r s', c s = (r, s') -> r <> OutOfFuel -> c' s = (r, s').

(** Expressions without a call. *)
Fixpoint call_free (e : expr) : bool :=
  match e with
  | BinOp _ l r => call_free l && call_free r
  | CallExpr _ _ => false
  | _ => true
  end.

(** Statements whose evaluation calls nothing: the expressions that they
    evaluate are without a call. A function definition does not evaluate
    its body and a return statement does not evaluate its expression. *)
Fixpoint stmt_call_free (st : stmt) : bool :=
  match st with
  | IfStmt test body orelse =>
      call_free test && forallb stmt_call_free body
      && forallb stmt_call_free orelse
  | WhileStmt test body => call_free test && forallb stmt_call_free body
  | AssignStmt target value => call_free target && call_free value
  | _ => true
  end.

(** A computation that leaves the current-namespace pointer where it was,
    whatever its outcome. *)
Definition keeps_pointer {A} (c : M A) : Prop :=
  forall s r s', c s = (r, s') -> CurrentNamespace s' = CurrentNamespace s.

(** The symbols of the augmented assignments with the operator each one
    stands for. *)
Definition aug_ops : list (string * binop) :=
  [ ("+=", Add); ("-=", Sub); ("*=", Mult); ("/=", Div); ("%=", Mod);
    ("&=", BitAnd); ("|=", BitOr); ("^=", BitXor); ("<<=", Lshift);
    (">>=", Rshift) ].

(** The loop of [IfStmt.eval] as the specification words it: a mark other
    than [Pass] stops the loop and is the result, a [Pass] mark is
    swallowed, and the results that are not marks are accumulated. *)
Fixpoint if_for_spec (ev : stmt -> M stmt_result) (stmts : list stmt)
    (result : list stmt_result) : M stmt_result :=
  match stmts with
  | [] => ret (RList result)
  | st :: rest =>
      let* evalResult := ev st in
      match evalResult with
      | RMark m =>
          match type m with
          | Pass => if_for_spec ev rest result
          | _ => ret evalResult
          end
      | _ => if_for_spec ev rest (accumulate result evalResult)
      end
  end.

(** The state in which [container] starts the body: the captured namespace
    is current and holds the arguments. *)
Definition entry_state (c : closure) (args : list value) (s : state) : state :=
  mkState (bind_args (namespace c) (fargs c) args (heap s)) (namespace c).

(** The addresses of the namespaces that enclose namespace [i], innermost
    first: the chain that lookup follows after [i] itself. *)
Fixpoint outer_chain (depth : nat) (h : list Namespace) (i : loc) : list loc :=
  match depth with
  | 0 => []
  | S d =>
      match h !! i with
      | Some ns =>
          match outerScope ns with
          | Some o => o :: outer_chain d h o
          | None => []
          end
      | None => []
      end
  end.

(** Every namespace was created after its outer scope: the outer scope of
    the namespace at address [i] has a smaller address. *)
Definition heap_wf (h : list Namespace) : Prop :=
  forall i ns o, h !! i = Some ns -> outerScope ns = Some o -> o < i.

(** ** Well-formed states *)

(** The addresses that a closure holds are addresses of the heap. *)
Definition closure_ok (L : nat) (c : closure) : Prop :=
  namespace c < L /\ previousNamespace c < L.

Definition value_ok (L : nat) (v : value) : Prop :=
  match v with
  | VFun c => closure_ok L c
  | _ => True
  end.

(** A state as evaluation builds it: namespaces are younger than their
    outer scopes, the pointer and the closures that are bound somewhere
    name namespaces that exist. *)
Definition state_ok (s : state) : Prop :=
  heap_wf (heap s)
  /\ CurrentNamespace s < length (heap s)
  /\ (forall i ns x v, heap s !! i = Some ns -> bindings ns !! x = Some v ->
        value_ok (length (heap s)) v).

(** [c] keeps states well formed, never shrinks the heap, and a value it
    returns satisfies [Q] for the size of the heap it leaves; [L0] bounds
    the heaps it is run in from below. *)
Definition ok_M {A} (L0 : nat) (Q : nat -> A -> Prop) (c : M A) : Prop :=
  forall s r s',
    state_ok s -> L0 <= length (heap s) -> c s = (r, s') ->
    state_ok s' /\ length (heap s) <= length (heap s')
    /\ (forall a, r = Ok a -> Q (length (heap s')) a).

Definition any_result {A} : nat -> A -> Prop := fun _ _ => True.

(** ** Programs of the examples *)

(** [n = n + 1; return n]. *)
Definition counter_body : list stmt :=
  [ AssignStmt (Name "n" Store) (AddOp (Name "n" Load) (Num 1));
    ReturnStmt (Some (Name "n" Load)) ].

(** [if 1: x = 5 else: x = 6]. *)
Definition if_one : stmt :=
  IfStmt (Num 1)
    [AssignStmt (Name "x" Store) (Num 5)]
    [AssignStmt (Name "x" Store) (Num 6)].

(** [def f(a): return a], [def g(): return missing] and
    [def h(): return 0] at top level. *)
Definition three_functions : list stmt :=
  [ FunctionDef "f" ["a"] [ReturnStmt (Some (Name "a" Load))];
    FunctionDef "g" [] [ReturnStmt (Some (Name "missing" Load))];
    FunctionDef "h" [] [ReturnStmt (Some (Num 0))] ].

(** [a = 7], [def g(): return 0], [def f(a): x = g(); return a] and
    [y = f(5)] at top level. *)
Definition return_after_call : list stmt :=
  [ AssignStmt (Name "a" Store) (Num 7);
    FunctionDef "g" [] [ReturnStmt (Some (Num 0))];
    FunctionDef "f" ["a"]
      [ AssignStmt (Name "x" Store) (CallExpr (Name "g" Load) []);
        ReturnStmt (Some (Name "a" Load)) ];
    AssignStmt (Name "y" Store) (CallExpr (Name "f" Load) [Num 5]) ].

(** [def g(): return 0] and [def f(): x = g()] at top level, then
    [r = f()]. *)
Definition assignment_from_call : list stmt :=
  [ FunctionDef "g" [] [ReturnStmt (Some (Num 0))];
    FunctionDef "f" [] [AssignStmt (Name "x" Store) (CallExpr (Name "g" Load) [])];
    AssignStmt (Name "r" Store) (CallExpr (Name "f" Load) []) ].

(** ** Vocabulary of the further properties *)

(** A computation that takes every state to one that is [R]-related to
    it, whatever its outcome. *)
Definition steps_in {A} (R : state -> state -> Prop) (c : M A) : Prop :=
  forall s r s', c s = (r, s') -> R s s'.

(** Every namespace of [s] is still there in [s'], with the same outer
    scope and with every name it bound still bound. *)
Definition heap_grows (s s' : state) : Prop :=
  forall i ns, heap s !! i = Some ns ->
    exists ns', heap s' !! i = Some ns'
                /\ outerScope ns' = outerScope ns
                /\ forall x, is_Some (bindings ns !! x) -> is_Some (bindings ns' !! x).

(** A computation whose returned values satisfy [Q]. *)
Definition returns {A} (Q : A -> Prop) (c : M A) : Prop :=
  forall s a s', c s = (Ok a, s') -> Q a.

(** Statements that call nothing, also where a [Return] mark of theirs is
    evaluated: as [stmt_call_free], and the expression of a return
    statement is without a call. *)
Fixpoint stmt_quiet (st : stmt) : bool :=
  match st with
  | IfStmt test body orelse =>
      call_free test && forallb stmt_quiet body && forallb stmt_quiet orelse
  | WhileStmt test body => call_free test && forallb stmt_quiet body
  | AssignStmt target value => call_free target && call_free value
  | ReturnStmt (Some e) => call_free e
  | _ => true
  end.

(** A result whose mark, if it is one, carries no call. *)
Definition mark_call_free (r : stmt_result) : Prop :=
  match r with
  | RMark m =>
      match toEval m with
      | Some e => call_free e = true
      | None => True
      end
  | _ => True
  end.

Definition for_exit_call_free (x : for_exit) : Prop :=
  match x with
  | ForDone _ _ => True
  | ForReturn evalResult => mark_call_free evalResult
  end.

(** A computation that leaves the pointer where it was and, of the
    namespaces that exist when it starts, changes at most the current
    one; it removes none. *)
Definition touches_only_current {A} (c : M A) : Prop :=
  forall s r s', c s = (r, s') ->
    CurrentNamespace s' = CurrentNamespace s
    /\ length (heap s) <= length (heap s')
    /\ forall j, j <> CurrentNamespace s -> j < length (heap s) ->
                 heap s' !! j = heap s !! j.

(** [pass] and [continue]. *)
Definition idle (st : stmt) : bool :=
  match st with
  | PassStmt | ContinueStmt => true
  | _ => false
  end.

(** ** The interactive shell ([shell/shell.py]) *)

(** What the lexer, the parser and its error listeners report for one
    text: the parser raises [RecognitionException] (with the text that
    [str] gives for it), or it returns a parse tree while the listeners
    hold [input_unfinished], [errors_encountered] and the buffered
    messages. *)
Inductive recognized (ParseTree : Type) :=
| Recognition (e : string)
| Listened (input_unfinished : bool) (errors_encountered : nat)
    (buffer : string) (parse_tree : ParseTree).
Arguments Recognition {ParseTree} e.
Arguments Listened {ParseTree} input_unfinished errors_encountered buffer parse_tree.

(** The collaborators of the shell that are not part of the sources: the
    recognizers ([CustomLexer], [TinyPyParser] and the listeners of
    [parser.Errors]), the constructor [AST.AST], its [str] and
    [Trees.toStringTree]. The shell is parametric in them. *)
Record Frontend (ParseTree Ast : Type) := mkFrontend {
  single_input_of : string -> recognized ParseTree;
  AST_of : ParseTree -> Ast;
  str_of_AST : Ast -> string;
  toStringTree : ParseTree -> string
}.
Arguments single_input_of {ParseTree Ast} f _.
Arguments AST_of {ParseTree Ast} f _.
Arguments str_of_AST {ParseTree Ast} f _.
Arguments toStringTree {ParseTree Ast} f _.

(** The command-line flags that the loop reads. *)
Record Args := mkArgs {
  parse_tree_flag : bool;
  ast_flag : bool
}.

(** The attributes of [InteractiveShell] that the loop reads and writes. *)
Record InteractiveShell := mkShell {
  args : Args;
  single_input : string;
  readMore : bool
}.

Definition newline : string := String (Ascii.ascii_of_nat 10) EmptyString.

(** [print(x)] writes [x] and a newline. *)
Definition print (x : string) : string := x +:+ newline.

(** One iteration of the [while True] loop of [InteractiveShell.loop],
    for the line that [sys.stdin.readline()] returns: the shell after the
    iteration and what it wrote to standard output, in order. *)
Definition loop_iteration {ParseTree Ast} (fe : Frontend ParseTree Ast)
    (sh : InteractiveShell) (line : string) : InteractiveShell * list string :=
  let prompt := if readMore sh then "... " else ">>> " in
  let input := if readMore sh then single_input sh +:+ line else line in
  match single_input_of fe input with
  | Recognition e =>
      (mkShell (args sh) input (readMore sh), [prompt; print ("Caught" +:+ e)])
  | Listened input_unfinished errors_encountered buffer parse_tree =>
      if input_unfinished then (mkShell (args sh) input true, [prompt])
      else if Nat.ltb 0 errors_encountered then
        (mkShell (args sh) input false, [prompt; print buffer])
      else
        let ast := AST_of fe parse_tree in
        (mkShell (args sh) input false,
         [prompt]
         ++ (if parse_tree_flag (args sh) then [print (str_of_AST fe ast)] else [])
         ++ (if ast_flag (args sh) then [print (toStringTree fe parse_tree)]
             else []))
  end.

(** The loop over the lines that standard input delivers. *)
Fixpoint loop {ParseTree Ast} (fe : Frontend ParseTree Ast)
    (sh : InteractiveShell) (lines : list string)
    : InteractiveShell * list string :=
  match lines with
  | [] => (sh, [])
  | line :: rest =>
      let '(sh1, out1) := loop_iteration fe sh line in
      let '(sh2, out2) := loop fe sh1 rest in
      (sh2, out1 ++ out2)
  end.

(** The text of several lines. *)
Definition text_of (lines : list string) : string :=
  foldr String.append EmptyString lines.

(** The parser reports the text as unfinished. *)
Definition unfinished {ParseTree} (r : recognized ParseTree) : bool :=
  match r with
  | Listened true _ _ _ => true
  | _ => false
  end.

(** Each of [lines], appended to [pending] and the lines before it, is
    reported as unfinished. *)
Fixpoint all_unfinished {ParseTree Ast} (fe : Frontend ParseTree Ast)
    (pending : string) (lines : list string) : bool :=
  match lines with
  | [] => true
  | line :: rest =>
      unfinished (single_input_of fe (pending +:+ line))
      && all_unfinished fe (pending +:+ line) rest
  end.

(** * Properties *)

(** ** The evaluation monad *)

Lemma bind_ok {A B} (c : M A) (k : A -> M B) s a s1 :
  c s = (Ok a, s1) -> bind c k s = k a s1.
Proof. intros H. unfold bind. now rewrite H. Qed.

Lemma bind_raise {A B} (c : M A) (k : A -> M B) s e s1 :
  c s = (Raise e, s1) -> bind c k s = (Raise e, s1).
Proof. intros H. unfold bind. now rewrite H. Qed.

Lemma bind_inv_ok {A B} (c : M A) (k : A -> M B) s b s2 :
  bind c k s = (Ok b, s2) ->
  exists a s1, c s = (Ok a, s1) /\ k a s1 = (Ok b, s2).
Proof.
  unfold bind. destruct (c s) as [[a | e |] s1]; intros H; try discriminate.
  now exists a, s1.
Qed.

(** ** Calls with the wrong number of arguments *)

(** C4. A call of a callable with [N] parameters on [M <> N] arguments
    raises the arity error, whose message is built from the function name,
    [N] and [M]; the heap is the one before the call (no parameter is
    bound) and the result does not depend on the evaluators [ev] and [evx]
    of the body (no statement of the body is evaluated). The only change
    of state is the current-namespace pointer, which the call has already
    moved. *)
Theorem container_arity_mismatch
    (ev : stmt -> M stmt_result) (evx : expr -> M value)
    (c : closure) (args : list value) (s : state) :
  length args <> length (fargs c) ->
  container ev evx c args s =
    (Raise (TypeError (arity_message (fname c) (length (fargs c)) (length args))),
     mkState (heap s) (namespace c)).
Proof.
  intros Hlen. unfold container, bind, set_current.
  destruct (Nat.eqb_spec (length args) (length (fargs c))) as [E | _];
    [contradiction | reflexivity].
Qed.

Lemma container_arity_mismatch_witness :
  container (eval_stmt int_binop 1) (eval_expr int_binop 1)
    (Closure "f" ["a"; "b"] [ReturnStmt (Some (AddOp (Name "a" Load) (Name "b" Load)))] 1 0)
    [VInt 1] (mkState [mkNamespace ∅ None; mkNamespace ∅ (Some 0)] 0)
  = (Raise (TypeError "f() takes 2 positional arguments but 1 were given"),
     mkState [mkNamespace ∅ None; mkNamespace ∅ (Some 0)] 1).
Proof.
  apply (container_arity_mismatch (eval_stmt int_binop 1) (eval_expr int_binop 1)
           (Closure "f" ["a"; "b"]
              [ReturnStmt (Some (AddOp (Name "a" Load) (Name "b" Load)))] 1 0)
           [VInt 1] (mkState [mkNamespace ∅ None; mkNamespace ∅ (Some 0)] 0)).
  simpl. lia.
Defined.

(** The same through a call expression: the callee and the arguments are
    evaluated, the arity check fails. *)
Lemma call_arity_mismatch ab n func args s c s1 vs s2 :
  eval_expr ab n func s = (Ok (VFun c), s1) ->
  mapM (eval_expr ab n) args s1 = (Ok vs, s2) ->
  length vs <> length (fargs c) ->
  eval_expr ab (S n) (CallExpr func args) s
  = (Raise (TypeError (arity_message (fname c) (length (fargs c)) (length vs))),
     mkState (heap s2) (namespace c)).
Proof.
  intros Hf Hargs Hlen.
  change (eval_expr ab (S n) (CallExpr func args))
    with (let* f := eval_expr ab n func in
          let* evalArgs := mapM (eval_expr ab n) args in
          match f with
          | VFun c => container (eval_stmt ab n) (eval_expr ab n) c evalArgs
          | _ => raise (HostError "object is not callable")
          end).
  rewrite (bind_ok _ _ _ _ _ Hf), (bind_ok _ _ _ _ _ Hargs).
  unfold container, bind, set_current.
  destruct (Nat.eqb_spec (length vs) (length (fargs c))) as [E | _];
    [contradiction | reflexivity].
Qed.

(** ** One step of each evaluator *)

Section Unfold.
Variable ab : binop -> value -> value -> error + value.

Lemma eval_while_S n test body result :
  eval_while ab (S n) test body result
  = (let* t := eval_expr ab n test in
     if eq_True t then
       let* x := while_for (eval_stmt ab n) body result in
       match x with
       | ForReturn evalResult => ret evalResult
       | ForDone true result' => ret (RList result')
       | ForDone false result' => eval_while ab n test body result'
       end
     else ret (RList result)).
Proof. reflexivity. Qed.

Lemma eval_stmt_While n test body :
  eval_stmt ab (S n) (WhileStmt test body) = eval_while ab n test body [].
Proof. reflexivity. Qed.

Lemma eval_stmt_If n test body orelse :
  eval_stmt ab (S n) (IfStmt test body orelse)
  = (let* t := eval_expr ab n test in
     if_for (eval_stmt ab n) (if eq_True t then body else orelse) []).
Proof. reflexivity. Qed.

Lemma eval_stmt_Assign n target value :
  eval_stmt ab (S n) (AssignStmt target value)
  = (let* lValue := eval_expr ab n target in
     let* rValue := eval_expr ab n value in
     match lValue with
     | VStr name =>
         let* cur := get_current in
         let* _ := modify_heap (ns_set cur name rValue) in
         ret RNone
     | _ => raise (HostError "assignment target is not a name")
     end).
Proof. reflexivity. Qed.

Lemma eval_expr_Call n func args :
  eval_expr ab (S n) (CallExpr func args)
  = (let* f := eval_expr ab n func in
     let* evalArgs := mapM (eval_expr ab n) args in
     match f with
     | VFun c => container (eval_stmt ab n) (eval_expr ab n) c evalArgs
     | _ => raise (HostError "object is not callable")
     end).
Proof. reflexivity. Qed.

Lemma eval_expr_BinOp n op l r :
  eval_expr ab (S n) (BinOp op l r)
  = (let* a := eval_expr ab n l in
     let* b := eval_expr ab n r in
     lift_binop (ab op a b)).
Proof. reflexivity. Qed.

Lemma eval_stmt_FunctionDef n name args body :
  eval_stmt ab (S n) (FunctionDef name args body)
  = (let* previousNamespace := get_current in
     let* namespace := ns_new previousNamespace in
     let* _ := modify_heap
                 (ns_set previousNamespace name
                    (VFun (Closure name args body namespace previousNamespace))) in
     ret RNone).
Proof. reflexivity. Qed.

End Unfold.

(** ** Fuel: more of it never changes a result *)

Lemma fuel_le_refl {A} (c : M A) : fuel_le c c.
Proof. intros s r s' H _. exact H. Qed.

Lemma fuel_le_trans {A} (c1 c2 c3 : M A) :
  fuel_le c1 c2 -> fuel_le c2 c3 -> fuel_le c1 c3.
Proof. intros H12 H23 s r s' H Hr. apply H23; auto. Qed.

Lemma fuel_le_timeout {A} (c : M A) : fuel_le timeout c.
Proof. intros s r s' H Hr. inversion H; subst. contradiction. Qed.

Lemma fuel_le_bind {A B} (c c' : M A) (k k' : A -> M B) :
  fuel_le c c' -> (forall a, fuel_le (k a) (k' a)) ->
  fuel_le (bind c k) (bind c' k').
Proof.
  intros Hc Hk s r s' H Hr. unfold bind in *.
  destruct (c s) as [[a | e |] s1] eqn:E.
  - rewrite (Hc _ _ _ E) by discriminate. now apply Hk.
  - rewrite (Hc _ _ _ E) by discriminate. exact H.
  - inversion H; subst. contradiction.
Qed.

Section LoopsMonotone.
Variables ev ev' : stmt -> M stmt_result.
Variables evx evx' : expr -> M value.
Hypothesis Hev : forall st, fuel_le (ev st) (ev' st).
Hypothesis Hevx : forall e, fuel_le (evx e) (evx' e).

Lemma if_for_fuel_le l : forall result,
  fuel_le (if_for ev l result) (if_for ev' l result).
Proof.
  induction l as [| st rest IH]; intros result; simpl.
  - apply fuel_le_refl.
  - apply fuel_le_bind; [apply Hev |].
    intros r. destruct (interrupts r); [apply fuel_le_refl | apply IH].
Qed.

Lemma while_for_fuel_le l : forall result,
  fuel_le (while_for ev l result) (while_for ev' l result).
Proof.
  induction l as [| st rest IH]; intros result; simpl.
  - apply fuel_le_refl.
  - apply fuel_le_bind; [apply Hev |].
    intros [| [[] e] | items]; simpl; auto using fuel_le_refl.
Qed.

Lemma container_for_fuel_le l :
  fuel_le (container_for ev evx l) (container_for ev' evx' l).
Proof.
  induction l as [| st rest IH]; simpl.
  - apply fuel_le_refl.
  - apply fuel_le_bind; [apply Hev |].
    intros [| [[] [e |]] | items]; simpl; auto using fuel_le_refl.
Qed.

Lemma mapM_fuel_le l : fuel_le (mapM evx l) (mapM evx' l).
Proof.
  induction l as [| e rest IH]; simpl.
  - apply fuel_le_refl.
  - apply fuel_le_bind; [apply Hevx |].
    intros b. apply fuel_le_bind; [apply IH |].
    intros bs. apply fuel_le_refl.
Qed.

Lemma container_fuel_le c args :
  fuel_le (container ev evx c args) (container ev' evx' c args).
Proof.
  unfold container. apply fuel_le_bind; [apply fuel_le_refl |].
  intros _. destruct (negb _); [apply fuel_le_refl |].
  apply fuel_le_bind; [apply fuel_le_refl |]. intros _.
  apply fuel_le_bind; [apply container_for_fuel_le |]. intros v.
  apply fuel_le_refl.
Qed.
End LoopsMonotone.

Section EvaluatorFacts.
Variable ab : binop -> value -> value -> error + value.

Lemma eval_fuel_le_succ n :
  (forall e, fuel_le (eval_expr ab n e) (eval_expr ab (S n) e)) /\
  (forall st, fuel_le (eval_stmt ab n st) (eval_stmt ab (S n) st)) /\
  (forall test body result,
      fuel_le (eval_while ab n test body result)
              (eval_while ab (S n) test body result)).
Proof.
  induction n as [| n (IHe & IHs & IHw)].
  - repeat split; intros; apply fuel_le_timeout.
  - split; [| split].
    + intros e. destruct e as [z | b | id [] | op l r | func args];
        try apply fuel_le_refl.
      * rewrite !eval_expr_BinOp.
        apply fuel_le_bind; [apply IHe |]. intros a.
        apply fuel_le_bind; [apply IHe |]. intros b. apply fuel_le_refl.
      * rewrite !eval_expr_Call.
        apply fuel_le_bind; [apply IHe |]. intros f.
        apply fuel_le_bind; [now apply mapM_fuel_le |]. intros vs.
        destruct f; try apply fuel_le_refl.
        now apply container_fuel_le.
    + intros st.
      destruct st as [name args body | test body orelse | test body
                     | target value | e | | |]; try apply fuel_le_refl.
      * rewrite !eval_stmt_If.
        apply fuel_le_bind; [apply IHe |]. intros t.
        now apply if_for_fuel_le.
      * rewrite !eval_stmt_While. apply IHw.
      * rewrite !eval_stmt_Assign.
        apply fuel_le_bind; [apply IHe |]. intros lValue.
        apply fuel_le_bind; [apply IHe |]. intros rValue.
        apply fuel_le_refl.
    + intros test body result. rewrite !eval_while_S.
      apply fuel_le_bind; [apply IHe |]. intros t.
      destruct (eq_True t); [| apply fuel_le_refl].
      apply fuel_le_bind; [now apply while_for_fuel_le |].
      intros [[] result' | r]; try apply fuel_le_refl. apply IHw.
Qed.

Lemma eval_expr_fuel_mono n m e :
  n <= m -> fuel_le (eval_expr ab n e) (eval_expr ab m e).
Proof.
  induction 1 as [| m _ IH]; [apply fuel_le_refl |].
  eapply fuel_le_trans; [exact IH | apply eval_fuel_le_succ].
Qed.

Lemma eval_stmt_fuel_mono n m st :
  n <= m -> fuel_le (eval_stmt ab n st) (eval_stmt ab m st).
Proof.
  induction 1 as [| m _ IH]; [apply fuel_le_refl |].
  eapply fuel_le_trans; [exact IH | apply eval_fuel_le_succ].
Qed.

Lemma eval_while_fuel_mono n m test body result :
  n <= m ->
  fuel_le (eval_while ab n test body result) (eval_while ab m test body result).
Proof.
  induction 1 as [| m _ IH]; [apply fuel_le_refl |].
  eapply fuel_le_trans; [exact IH | apply eval_fuel_le_succ].
Qed.

End EvaluatorFacts.

(** ** The loops over statement lists *)

Section Loops.
Variable ev : stmt -> M stmt_result.
Variable evx : expr -> M value.

Lemma if_for_through l : forall s rs s' result,
  run_through ev interrupts l s = Some (rs, s') ->
  if_for ev l result s = (Ok (RList (fold_left accumulate rs result)), s').
Proof.
  induction l as [| st rest IH]; intros s rs s' result H; simpl in H.
  - now inversion H.
  - destruct (ev st s) as [[r | e |] s1] eqn:E; try discriminate.
    destruct (interrupts r) eqn:Hr; try discriminate.
    destruct (run_through ev interrupts rest s1) as [[rs' s2] |] eqn:R;
      try discriminate.
    inversion H; subst. simpl.
    rewrite (bind_ok _ _ _ _ _ E), Hr. now apply IH.
Qed.

Lemma if_for_interrupted pre : forall s rs s1 st r s2 post result,
  run_through ev interrupts pre s = Some (rs, s1) ->
  ev st s1 = (Ok r, s2) -> interrupts r = true ->
  if_for ev (pre ++ st :: post) result s = (Ok r, s2).
Proof.
  induction pre as [| p pre IH]; intros s rs s1 st r s2 post result H E Hr;
    simpl in H.
  - inversion H; subst. simpl. now rewrite (bind_ok _ _ _ _ _ E), Hr.
  - destruct (ev p s) as [[r0 | e |] s0] eqn:E0; try discriminate.
    destruct (interrupts r0) eqn:Hr0; try discriminate.
    destruct (run_through ev interrupts pre s0) as [[rs' s'] |] eqn:R;
      try discriminate.
    inversion H; subst. simpl.
    rewrite (bind_ok _ _ _ _ _ E0), Hr0. eapply IH; eauto.
Qed.

(** On a result that does not interrupt, the inner loop of [while] goes
    on with the result accumulated. *)
Lemma while_for_cons_through st rest result s r s1 :
  ev st s = (Ok r, s1) -> interrupts r = false ->
  while_for ev (st :: rest) result s
  = while_for ev rest (accumulate result r) s1.
Proof.
  intros E Hr. simpl. rewrite (bind_ok _ _ _ _ _ E).
  destruct r as [| [[] e] | items]; simpl in *; congruence.
Qed.

Lemma while_for_through l : forall s rs s' result,
  run_through ev interrupts l s = Some (rs, s') ->
  while_for ev l result s
  = (Ok (ForDone false (fold_left accumulate rs result)), s').
Proof.
  induction l as [| st rest IH]; intros s rs s' result H; simpl in H.
  - now inversion H.
  - destruct (ev st s) as [[r | e |] s1] eqn:E; try discriminate.
    destruct (interrupts r) eqn:Hr; try discriminate.
    destruct (run_through ev interrupts rest s1) as [[rs' s2] |] eqn:R;
      try discriminate.
    inversion H; subst.
    rewrite (while_for_cons_through _ _ _ _ _ _ E Hr). simpl. now apply IH.
Qed.

Lemma while_for_interrupted pre : forall s rs s1 st m s2 post result,
  run_through ev interrupts pre s = Some (rs, s1) ->
  ev st s1 = (Ok (RMark m), s2) ->
  while_for ev (pre ++ st :: post) result s
  = match type m with
    | Return => (Ok (ForReturn (RMark m)), s2)
    | Break => (Ok (ForDone true (fold_left accumulate rs result)), s2)
    | Continue => (Ok (ForDone false (fold_left accumulate rs result)), s2)
    | Pass => while_for ev post
                (accumulate (fold_left accumulate rs result) (RMark m)) s2
    end.
Proof.
  induction pre as [| p pre IH]; intros s rs s1 st m s2 post result H E;
    simpl in H.
  - inversion H; subst. simpl. rewrite (bind_ok _ _ _ _ _ E).
    now destruct m as [[] e].
  - destruct (ev p s) as [[r0 | e |] s0] eqn:E0; try discriminate.
    destruct (interrupts r0) eqn:Hr0; try discriminate.
    destruct (run_through ev interrupts pre s0) as [[rs' s'] |] eqn:R;
      try discriminate.
    inversion H; subst.
    change ((p :: pre) ++ st :: post) with (p :: (pre ++ st :: post)).
    rewrite (while_for_cons_through _ _ _ _ _ _ E0 Hr0).
    now rewrite (IH _ _ _ _ _ _ post (accumulate result r0) R E).
Qed.

(** The only result that leaves [WhileStmt.eval] from inside the inner
    loop is a [Return] mark. *)
Lemma while_for_return l : forall result s r s',
  while_for ev l result s = (Ok (ForReturn r), s') ->
  exists m, r = RMark m /\ type m = Return.
Proof.
  induction l as [| st rest IH]; intros result s r s' H; simpl in H.
  - discriminate.
  - apply bind_inv_ok in H as (r0 & s1 & _ & H).
    destruct r0 as [| [[] e] | items]; simpl in H; eauto; try discriminate.
    inversion H; subst. eexists; eauto.
Qed.

Lemma container_for_cons_through st rest s r s1 :
  ev st s = (Ok r, s1) -> is_return r = false ->
  container_for ev evx (st :: rest) s = container_for ev evx rest s1.
Proof.
  intros E Hr. simpl. rewrite (bind_ok _ _ _ _ _ E).
  destruct r as [| [[] e] | items]; simpl in *; congruence.
Qed.

Lemma container_for_through l : forall s rs s',
  run_through ev is_return l s = Some (rs, s') ->
  container_for ev evx l s = (Ok VNone, s').
Proof.
  induction l as [| st rest IH]; intros s rs s' H; simpl in H.
  - now inversion H.
  - destruct (ev st s) as [[r | e |] s1] eqn:E; try discriminate.
    destruct (is_return r) eqn:Hr; try discriminate.
    destruct (run_through ev is_return rest s1) as [[rs' s2] |] eqn:R;
      try discriminate.
    inversion H; subst.
    rewrite (container_for_cons_through _ _ _ _ _ E Hr). eapply IH; eauto.
Qed.

Lemma container_for_return pre : forall s rs s1 st m s2 post,
  run_through ev is_return pre s = Some (rs, s1) ->
  ev st s1 = (Ok (RMark m), s2) -> type m = Return ->
  container_for ev evx (pre ++ st :: post) s
  = match toEval m with
    | Some e => evx e s2
    | None => (Ok VNone, s2)
    end.
Proof.
  induction pre as [| p pre IH]; intros s rs s1 st m s2 post H E Hm;
    simpl in H.
  - inversion H; subst. simpl. rewrite (bind_ok _ _ _ _ _ E), Hm.
    now destruct (toEval m).
  - destruct (ev p s) as [[r0 | e |] s0] eqn:E0; try discriminate.
    destruct (is_return r0) eqn:Hr0; try discriminate.
    destruct (run_through ev is_return pre s0) as [[rs' s'] |] eqn:R;
      try discriminate.
    inversion H; subst.
    change ((p :: pre) ++ st :: post) with (p :: (pre ++ st :: post)).
    rewrite (container_for_cons_through _ _ _ _ _ E0 Hr0). eapply IH; eauto.
Qed.

End Loops.

(** A prefix that runs through with little fuel runs through with more. *)
Lemma run_through_fuel_mono ab n m stop l : forall s rs s',
  n <= m ->
  run_through (eval_stmt ab n) stop l s = Some (rs, s') ->
  run_through (eval_stmt ab m) stop l s = Some (rs, s').
Proof.
  induction l as [| st rest IH]; intros s rs s' Hnm H; simpl in *; auto.
  destruct (eval_stmt ab n st s) as [[r | e |] s1] eqn:E; try discriminate.
  rewrite (eval_stmt_fuel_mono ab n m st Hnm _ _ _ E) by discriminate.
  destruct (stop r); try discriminate.
  destruct (run_through (eval_stmt ab n) stop rest s1) as [[rs' s2] |] eqn:R;
    try discriminate.
  now rewrite (IH _ _ _ Hnm R).
Qed.

(** ** The while loop *)

Section While.
Variable ab : binop -> value -> value -> error + value.

Lemma eval_while_mark_is_return fuel : forall test body result s r s',
  eval_while ab fuel test body result s = (Ok r, s') ->
  forall m, r = RMark m -> type m = Return.
Proof.
  induction fuel as [| n IH]; intros test body result s r s' H m Hm.
  - discriminate.
  - rewrite eval_while_S in H.
    apply bind_inv_ok in H as (t & s1 & _ & H).
    destruct (eq_True t).
    + apply bind_inv_ok in H as (x & s2 & Hx & H).
      destruct x as [[] result' | r0].
      * inversion H; subst. discriminate.
      * eapply IH; eauto.
      * inversion H; subst.
        apply while_for_return in Hx as (m' & Hm' & Ht).
        congruence.
    + inversion H; subst. discriminate.
Qed.

Lemma while_rounds_eval n k : forall test body result s result' s',
  while_rounds ab n k test body result s = Some (result', s') ->
  forall F r s'',
    eval_while ab F test body result' s' = (r, s'') -> r <> OutOfFuel ->
    forall fuel, Nat.max F (S n) + k <= fuel ->
    eval_while ab fuel test body result s = (r, s'').
Proof.
  induction k as [| k IH]; intros test body result s result' s' H F r s'' HF Hr
    fuel Hfuel; simpl in H.
  - inversion H; subst.
    apply (eval_while_fuel_mono ab F fuel); auto. lia.
  - destruct fuel as [| f]; [lia |].
    destruct (eval_expr ab n test s) as [[t | e |] s1] eqn:Et; try discriminate.
    destruct (eq_True t) eqn:Ht; try discriminate.
    destruct (while_for (eval_stmt ab n) body result s1)
      as [[[[] result1 | r1] | e |] s2] eqn:Ew; try discriminate.
    rewrite eval_while_S.
    assert (Hn : n <= f) by lia.
    rewrite (bind_ok _ _ _ _ _
               (eval_expr_fuel_mono ab n f test Hn _ _ _ Et ltac:(discriminate))).
    rewrite Ht.
    assert (Ew' : while_for (eval_stmt ab f) body result s1
                  = (Ok (ForDone false result1), s2)).
    { apply (while_for_fuel_le (eval_stmt ab n) (eval_stmt ab f));
        [intros st; now apply eval_stmt_fuel_mono | exact Ew | discriminate]. }
    rewrite (bind_ok _ _ _ _ _ Ew').
    eapply IH; eauto. lia.
Qed.

(** One iteration whose inner loop ends in [x]. *)
Lemma eval_while_iteration n test body result s t s1 x s2 :
  eval_expr ab n test s = (Ok t, s1) -> eq_True t = true ->
  while_for (eval_stmt ab n) body result s1 = (Ok x, s2) ->
  eval_while ab (S n) test body result s
  = match x with
    | ForReturn evalResult => (Ok evalResult, s2)
    | ForDone true result' => (Ok (RList result'), s2)
    | ForDone false result' => eval_while ab n test body result' s2
    end.
Proof.
  intros Et Ht Ex.
  rewrite eval_while_S, (bind_ok _ _ _ _ _ Et), Ht, (bind_ok _ _ _ _ _ Ex).
  now destruct x as [[] result' | r].
Qed.

(** C3. The result of a [while] statement is never a [Break] or
    [Continue] mark: whenever it is a mark at all, it is a [Return] mark.
    Let a statement [st] of the body yield a mark, in the first iteration
    or after [k] iterations that ran to their end, the statements [pre]
    before it having run through. A [Return] mark is the result of the
    whole [while] statement, in the state that [st] left: the statements
    [post] after [st] and the test are not evaluated again. A [Break] mark
    ends the statement with the list accumulated so far. A [Continue] mark
    makes the statement go on with the next test, from the list
    accumulated so far. *)
Theorem while_contains_break_continue_and_passes_return :
  (forall fuel test body s r s',
      eval_stmt ab fuel (WhileStmt test body) s = (Ok r, s') ->
      forall m, r = RMark m -> type m = Return)
  /\
  (forall n k test pre st post s result1 s1 t s2 rs s3 m s4,
      while_rounds ab n k test (pre ++ st :: post) [] s = Some (result1, s1) ->
      eval_expr ab n test s1 = (Ok t, s2) -> eq_True t = true ->
      run_through (eval_stmt ab n) interrupts pre s2 = Some (rs, s3) ->
      eval_stmt ab n st s3 = (Ok (RMark m), s4) -> type m = Return ->
      forall fuel, n + k + 2 <= fuel ->
      eval_stmt ab fuel (WhileStmt test (pre ++ st :: post)) s
      = (Ok (RMark m), s4))
  /\
  (forall n k test pre st post s result1 s1 t s2 rs s3 m s4,
      while_rounds ab n k test (pre ++ st :: post) [] s = Some (result1, s1) ->
      eval_expr ab n test s1 = (Ok t, s2) -> eq_True t = true ->
      run_through (eval_stmt ab n) interrupts pre s2 = Some (rs, s3) ->
      eval_stmt ab n st s3 = (Ok (RMark m), s4) -> type m = Break ->
      forall fuel, n + k + 2 <= fuel ->
      eval_stmt ab fuel (WhileStmt test (pre ++ st :: post)) s
      = (Ok (RList (fold_left accumulate rs result1)), s4))
  /\
  (forall n k test pre st post s result1 s1 t s2 rs s3 m s4,
      while_rounds ab n k test (pre ++ st :: post) [] s = Some (result1, s1) ->
      eval_expr ab n test s1 = (Ok t, s2) -> eq_True t = true ->
      run_through (eval_stmt ab n) interrupts pre s2 = Some (rs, s3) ->
      eval_stmt ab n st s3 = (Ok (RMark m), s4) -> type m = Continue ->
      forall r s5,
        eval_while ab n test (pre ++ st :: post)
          (fold_left accumulate rs result1) s4 = (r, s5) ->
        r <> OutOfFuel ->
        forall fuel, n + k + 2 <= fuel ->
        eval_stmt ab fuel (WhileStmt test (pre ++ st :: post)) s = (r, s5)).
Proof.
  split.
  { intros [| n] test body s r s' H m Hm; [discriminate |].
    rewrite eval_stmt_While in H.
    eapply eval_while_mark_is_return; eauto. }
  assert (Hiter : forall n k test pre st post s result1 s1 t s2 rs s3 m s4,
      while_rounds ab n k test (pre ++ st :: post) [] s = Some (result1, s1) ->
      eval_expr ab n test s1 = (Ok t, s2) -> eq_True t = true ->
      run_through (eval_stmt ab n) interrupts pre s2 = Some (rs, s3) ->
      eval_stmt ab n st s3 = (Ok (RMark m), s4) ->
      forall x, while_for (eval_stmt ab n) (pre ++ st :: post) result1 s2
                = (Ok x, s4) ->
      forall r s5,
        match x with
        | ForReturn evalResult => (Ok evalResult, s4)
        | ForDone true result' => (Ok (RList result'), s4)
        | ForDone false result' =>
            eval_while ab n test (pre ++ st :: post) result' s4
        end = (r, s5) ->
        r <> OutOfFuel ->
        forall fuel, n + k + 2 <= fuel ->
        eval_stmt ab fuel (WhileStmt test (pre ++ st :: post)) s = (r, s5)).
  { intros n k test pre st post s result1 s1 t s2 rs s3 m s4
      Hrounds Et Ht Hpre Est x Hx r s5 Hr Hne fuel Hfuel.
    destruct fuel as [| f]; [lia |].
    rewrite eval_stmt_While.
    eapply (while_rounds_eval n k _ _ _ _ _ _ Hrounds (S n)).
    - rewrite (eval_while_iteration _ _ _ _ _ _ _ _ _ Et Ht Hx). exact Hr.
    - exact Hne.
    - lia. }
  assert (Hfor : forall n pre st post result1 s2 rs s3 m s4,
      run_through (eval_stmt ab n) interrupts pre s2 = Some (rs, s3) ->
      eval_stmt ab n st s3 = (Ok (RMark m), s4) ->
      type m <> Pass ->
      while_for (eval_stmt ab n) (pre ++ st :: post) result1 s2
      = (Ok match type m with
            | Return => ForReturn (RMark m)
            | Break => ForDone true (fold_left accumulate rs result1)
            | _ => ForDone false (fold_left accumulate rs result1)
            end, s4)).
  { intros n pre st post result1 s2 rs s3 m s4 Hpre Est Hm.
    rewrite (while_for_interrupted _ _ _ _ _ _ _ _ _ _ Hpre Est).
    now destruct (type m). }
  split; [| split].
  - intros n k test pre st post s result1 s1 t s2 rs s3 m s4
      Hrounds Et Ht Hpre Est Hm fuel Hfuel.
    eapply (Hiter n k test pre st post
              _ _ _ _ _ _ _ _ _ Hrounds Et Ht Hpre Est _
              (Hfor _ _ _ post result1 _ _ _ _ _ Hpre Est ltac:(congruence)));
      [rewrite Hm; reflexivity | discriminate | exact Hfuel].
  - intros n k test pre st post s result1 s1 t s2 rs s3 m s4
      Hrounds Et Ht Hpre Est Hm fuel Hfuel.
    eapply (Hiter n k test pre st post
              _ _ _ _ _ _ _ _ _ Hrounds Et Ht Hpre Est _
              (Hfor _ _ _ post result1 _ _ _ _ _ Hpre Est ltac:(congruence)));
      [rewrite Hm; reflexivity | discriminate | exact Hfuel].
  - intros n k test pre st post s result1 s1 t s2 rs s3 m s4
      Hrounds Et Ht Hpre Est Hm r s5 Hr Hne fuel Hfuel.
    eapply (Hiter n k test pre st post
              _ _ _ _ _ _ _ _ _ Hrounds Et Ht Hpre Est _
              (Hfor _ _ _ post result1 _ _ _ _ _ Hpre Est ltac:(congruence)));
      [rewrite Hm; exact Hr | exact Hne | exact Hfuel].
Qed.

End While.

Lemma while_contains_break_continue_and_passes_return_witness :
  eval_stmt int_binop 7
    (WhileStmt (NameConstant true)
       ([] ++ IfStmt (Name "flag" Load) [ReturnStmt (Some (Num 7))] []
           :: [AssignStmt (Name "flag" Store) (NameConstant true);
               AssignStmt (Name "count" Store)
                 (AddOp (Name "count" Load) (Num 1))]))
    (mkState [mkNamespace (<["count" := VInt 0]> (<["flag" := VBool false]> ∅))
                None] 0)
  = (Ok (RMark (Mark Return (Some (Num 7)))),
     mkState [mkNamespace
                (<["count" := VInt 1]>
                   (<["flag" := VBool true]>
                      (<["count" := VInt 0]> (<["flag" := VBool false]> ∅))))
                None] 0).
Proof.
  eapply (proj1 (proj2 (while_contains_break_continue_and_passes_return int_binop))
            4 1 (NameConstant true) []
            (IfStmt (Name "flag" Load) [ReturnStmt (Some (Num 7))] [])
            [AssignStmt (Name "flag" Store) (NameConstant true);
             AssignStmt (Name "count" Store) (AddOp (Name "count" Load) (Num 1))]).
  - reflexivity.
  - reflexivity.
  - reflexivity.
  - reflexivity.
  - reflexivity.
  - reflexivity.
  - lia.
Defined.

(** ** Evaluation without calls *)

Section NoCalls.
Variable ab : binop -> value -> value -> error + value.

(** An expression without a call leaves the state as it is, whatever its
    outcome. *)
Lemma call_free_pure n : forall e s r s',
  call_free e = true -> eval_expr ab n e s = (r, s') -> s' = s.
Proof.
  induction n as [| n IH]; intros e s r s' Hcf H.
  - now inversion H.
  - destruct e as [z | b | id [] | op l r0 | func args]; simpl in Hcf;
      try discriminate; try (now inversion H).
    + simpl in H. unfold lookup_current in H.
      destruct (ns_get _ _ _ _); now inversion H.
    + apply andb_prop in Hcf as [Hl Hr].
      rewrite eval_expr_BinOp in H. unfold bind in H.
      destruct (eval_expr ab n l s) as [[a | e |] s1] eqn:El;
        apply IH in El; auto; subst s1; try (now inversion H).
      destruct (eval_expr ab n r0 s) as [[b | e |] s2] eqn:Er;
        apply IH in Er; auto; subst s2; try (now inversion H).
      destruct (ab op a b); now inversion H.
Qed.

Lemma keeps_pointer_bind {A B} (c : M A) (k : A -> M B) :
  keeps_pointer c -> (forall a, keeps_pointer (k a)) ->
  keeps_pointer (bind c k).
Proof.
  intros Hc Hk s r s' H. unfold bind in H.
  destruct (c s) as [[a | e |] s1] eqn:E; apply Hc in E.
  - apply Hk in H. congruence.
  - inversion H; subst. exact E.
  - inversion H; subst. exact E.
Qed.

Lemma keeps_pointer_ret {A} (a : A) : keeps_pointer (ret a).
Proof. intros s r s' H. now inversion H. Qed.

Lemma keeps_pointer_raise {A} e : keeps_pointer (@raise A e).
Proof. intros s r s' H. now inversion H. Qed.

Lemma keeps_pointer_modify_heap f : keeps_pointer (modify_heap f).
Proof. intros s r s' H. now inversion H. Qed.

Lemma keeps_pointer_get_current : keeps_pointer get_current.
Proof. intros s r s' H. now inversion H. Qed.

Lemma keeps_pointer_ns_new o : keeps_pointer (ns_new o).
Proof. intros s r s' H. now inversion H. Qed.

Lemma keeps_pointer_expr n e :
  call_free e = true -> keeps_pointer (eval_expr ab n e).
Proof. intros Hcf s r s' H. now rewrite (call_free_pure n e s r s' Hcf H). Qed.

Lemma keeps_pointer_if_for ev l : forall result,
  (forall st, In st l -> keeps_pointer (ev st)) ->
  keeps_pointer (if_for ev l result).
Proof.
  induction l as [| st rest IH]; intros result Hev; simpl.
  - apply keeps_pointer_ret.
  - apply keeps_pointer_bind; [apply Hev; now left |]. intros r.
    destruct (interrupts r); [apply keeps_pointer_ret |].
    apply IH. intros st' Hin. apply Hev. now right.
Qed.

Lemma keeps_pointer_while_for ev l : forall result,
  (forall st, In st l -> keeps_pointer (ev st)) ->
  keeps_pointer (while_for ev l result).
Proof.
  induction l as [| st rest IH]; intros result Hev; simpl.
  - apply keeps_pointer_ret.
  - assert (Hrest : forall st', In st' rest -> keeps_pointer (ev st'))
      by (intros st' Hin; apply Hev; now right).
    apply keeps_pointer_bind; [apply Hev; now left |].
    intros [| [[] e] | items]; simpl; auto using keeps_pointer_ret.
Qed.

(** A statement that calls nothing leaves the pointer where it was. *)
Lemma keeps_pointer_stmt n :
  (forall st, stmt_call_free st = true -> keeps_pointer (eval_stmt ab n st)) /\
  (forall test body result,
      call_free test = true -> forallb stmt_call_free body = true ->
      keeps_pointer (eval_while ab n test body result)).
Proof.
  induction n as [| n (IHs & IHw)].
  - split; [intros st _ | intros test body result _ _];
      intros s r s' H; now inversion H.
  - assert (Hl : forall l, forallb stmt_call_free l = true ->
                   forall st, In st l -> keeps_pointer (eval_stmt ab n st)).
    { intros l Hl st Hin. apply IHs.
      now apply (proj1 (forallb_forall stmt_call_free l) Hl). }
    split.
    + intros st Hcf.
      destruct st as [name args body | test body orelse | test body
                     | target value | e | | |]; simpl in Hcf;
        try apply keeps_pointer_ret.
      * rewrite eval_stmt_FunctionDef.
        apply keeps_pointer_bind; [apply keeps_pointer_get_current |].
        intros prev.
        apply keeps_pointer_bind; [apply keeps_pointer_ns_new |].
        intros ns.
        apply keeps_pointer_bind; [apply keeps_pointer_modify_heap |].
        intros _. apply keeps_pointer_ret.
      * apply andb_prop in Hcf as [Hcf Ho]. apply andb_prop in Hcf as [Ht Hb].
        rewrite eval_stmt_If.
        apply keeps_pointer_bind; [now apply keeps_pointer_expr |]. intros t.
        apply keeps_pointer_if_for.
        destruct (eq_True t); [apply (Hl body Hb) | apply (Hl orelse Ho)].
      * apply andb_prop in Hcf as [Ht Hb].
        rewrite eval_stmt_While. now apply IHw.
      * apply andb_prop in Hcf as [Ht Hv].
        rewrite eval_stmt_Assign.
        apply keeps_pointer_bind; [now apply keeps_pointer_expr |].
        intros lValue.
        apply keeps_pointer_bind; [now apply keeps_pointer_expr |].
        intros rValue.
        destruct lValue; try apply keeps_pointer_raise.
        apply keeps_pointer_bind; [apply keeps_pointer_get_current |].
        intros cur.
        apply keeps_pointer_bind; [apply keeps_pointer_modify_heap |].
        intros _. apply keeps_pointer_ret.
    + intros test body result Ht Hb. rewrite eval_while_S.
      apply keeps_pointer_bind; [now apply keeps_pointer_expr |]. intros t.
      destruct (eq_True t); [| apply keeps_pointer_ret].
      apply keeps_pointer_bind;
        [apply keeps_pointer_while_for, (Hl body Hb) |].
      intros [[] result' | r]; try apply keeps_pointer_ret. now apply IHw.
Qed.

Lemma run_through_keeps_pointer n stop l : forall s rs s',
  forallb stmt_call_free l = true ->
  run_through (eval_stmt ab n) stop l s = Some (rs, s') ->
  CurrentNamespace s' = CurrentNamespace s.
Proof.
  induction l as [| st rest IH]; intros s rs s' Hl H; simpl in *.
  - now inversion H.
  - apply andb_prop in Hl as [Hst Hrest].
    destruct (eval_stmt ab n st s) as [[r | e |] s1] eqn:E; try discriminate.
    apply (proj1 (keeps_pointer_stmt n) st Hst) in E.
    destruct (stop r); try discriminate.
    destruct (run_through (eval_stmt ab n) stop rest s1) as [[rs' s2] |] eqn:R;
      try discriminate.
    inversion H; subst. apply IH in R; auto. congruence.
Qed.

End NoCalls.

(** ** The if statement *)

Section IfAndCall.
Variable ab : binop -> value -> value -> error + value.

(** C5, as the code has it. With the test evaluated to [t], the branch
    is the body when [t == True] and the orelse otherwise. A statement
    of the branch whose result is a mark other than [Pass] ends the
    evaluation: that mark is the result, in the state the statement
    left. When no statement does so, the result is the list of the
    results in order, a list result being spliced in and any other
    result appended. A [Pass] mark does not end the evaluation and is
    appended like any other result. *)
Theorem IfStmt_eval_branch n test body orelse s t s1 fuel :
  eval_expr ab n test s = (Ok t, s1) -> n < fuel ->
  (forall pre st post rs s2 r s3,
      (if eq_True t then body else orelse) = pre ++ st :: post ->
      run_through (eval_stmt ab n) interrupts pre s1 = Some (rs, s2) ->
      eval_stmt ab n st s2 = (Ok r, s3) -> interrupts r = true ->
      eval_stmt ab fuel (IfStmt test body orelse) s = (Ok r, s3))
  /\
  (forall rs s2,
      run_through (eval_stmt ab n) interrupts
        (if eq_True t then body else orelse) s1 = Some (rs, s2) ->
      eval_stmt ab fuel (IfStmt test body orelse) s
      = (Ok (RList (fold_left accumulate rs [])), s2))
  /\
  (forall result e,
      interrupts (RMark (Mark Pass e)) = false /\
      accumulate result (RMark (Mark Pass e)) = result ++ [RMark (Mark Pass e)]).
Proof.
  intros Et Hfuel.
  assert (Hstep : forall r s',
             if_for (eval_stmt ab n) (if eq_True t then body else orelse) [] s1
             = (Ok r, s') ->
             eval_stmt ab fuel (IfStmt test body orelse) s = (Ok r, s')).
  { intros r s' H.
    apply (eval_stmt_fuel_mono ab (S n) fuel); [lia | | discriminate].
    now rewrite eval_stmt_If, (bind_ok _ _ _ _ _ Et). }
  repeat split.
  - intros pre st post rs s2 r s3 Hb Hpre Est Hr.
    apply Hstep. rewrite Hb. eapply if_for_interrupted; eauto.
  - intros rs s2 Hrun. apply Hstep. now apply if_for_through.
Qed.

(** ** Function calls *)

(** With the right number of arguments, [container] binds them and runs
    the body from [entry_state]; when the loop over the body ends, the
    pointer is set to [previousNamespace]. *)
Lemma container_entry ev evx c args s :
  length args = length (fargs c) ->
  container ev evx c args s
  = (let* returnValue := container_for ev evx (fbody c) in
     let* _ := set_current (previousNamespace c) in
     ret returnValue) (entry_state c args s).
Proof.
  intros Hlen. unfold container, entry_state.
  unfold bind at 1. unfold set_current at 1. simpl.
  rewrite Hlen, Nat.eqb_refl. reflexivity.
Qed.

(** What a call returns, as the code has it (beside C6). A return
    statement yields the [Return] mark
    with its expression as it stands, in an unchanged state. A call whose
    body reaches a [Return] mark at statement [st] evaluates the carried
    expression in the state that [st] left, with whatever namespace is
    current there, and that value is the value of the call; the statements
    [post] are not evaluated. Without a carried expression, and when the
    body ends without a [Return] mark, the value is [None]. The namespace
    that is current when the expression is evaluated is the captured
    namespace of the callee as long as the statements evaluated so far
    have called nothing. *)
Theorem return_value_of_call n :
  (forall e s,
      eval_stmt ab (S n) (ReturnStmt e) s = (Ok (RMark (Mark Return e)), s))
  /\
  (forall c args s pre st post rs s1 m s2,
      length args = length (fargs c) ->
      fbody c = pre ++ st :: post ->
      run_through (eval_stmt ab n) is_return pre (entry_state c args s)
      = Some (rs, s1) ->
      eval_stmt ab n st s1 = (Ok (RMark m), s2) -> type m = Return ->
      container (eval_stmt ab n) (eval_expr ab n) c args s
      = match toEval m with
        | Some e =>
            match eval_expr ab n e s2 with
            | (Ok v, s3) => (Ok v, mkState (heap s3) (previousNamespace c))
            | other => other
            end
        | None => (Ok VNone, mkState (heap s2) (previousNamespace c))
        end)
  /\
  (forall c args s rs s1,
      length args = length (fargs c) ->
      run_through (eval_stmt ab n) is_return (fbody c) (entry_state c args s)
      = Some (rs, s1) ->
      container (eval_stmt ab n) (eval_expr ab n) c args s
      = (Ok VNone, mkState (heap s1) (previousNamespace c)))
  /\
  (forall c args s pre st rs s1 r s2,
      forallb stmt_call_free pre = true -> stmt_call_free st = true ->
      run_through (eval_stmt ab n) is_return pre (entry_state c args s)
      = Some (rs, s1) ->
      eval_stmt ab n st s1 = (r, s2) ->
      CurrentNamespace s2 = namespace c).
Proof.
  split; [reflexivity |]. split; [| split].
  - intros c args s pre st post rs s1 m s2 Hlen Hbody Hpre Est Hm.
    rewrite (container_entry _ _ _ _ _ Hlen), Hbody.
    unfold bind at 1.
    rewrite (container_for_return _ _ _ _ _ _ _ _ _ post Hpre Est Hm).
    destruct (toEval m) as [e |]; [| reflexivity].
    now destruct (eval_expr ab n e s2) as [[v | err |] s3].
  - intros c args s rs s1 Hlen Hrun.
    rewrite (container_entry _ _ _ _ _ Hlen).
    unfold bind at 1.
    now rewrite (container_for_through _ _ _ _ _ _ Hrun).
  - intros c args s pre st rs s1 r s2 Hpre Hst Hrun Est.
    apply (proj1 (keeps_pointer_stmt ab n) st Hst) in Est.
    apply (run_through_keeps_pointer ab n _ _ _ _ _ Hpre) in Hrun.
    rewrite Est, Hrun. reflexivity.
Qed.

(** A call that returns a value leaves [previousNamespace] current: the
    namespace that was current when the function was defined. *)
Lemma container_ok_pointer ev evx c args s v s' :
  container ev evx c args s = (Ok v, s') ->
  CurrentNamespace s' = previousNamespace c.
Proof.
  unfold container. intros H.
  apply bind_inv_ok in H as ([] & s1 & _ & H).
  destruct (negb _); [discriminate |].
  apply bind_inv_ok in H as ([] & s2 & _ & H).
  apply bind_inv_ok in H as (rv & s3 & _ & H).
  apply bind_inv_ok in H as ([] & s4 & H4 & H).
  inversion H; subst. unfold set_current in H4. now inversion H4.
Qed.

End IfAndCall.

Lemma IfStmt_eval_branch_witness :
  eval_stmt int_binop 4
    (IfStmt (Num 1)
       [PassStmt; AssignStmt (Name "x" Store) (Num 5); BreakStmt;
        AssignStmt (Name "x" Store) (Num 6)] [])
    init_state
  = (Ok (RMark (Mark Break None)),
     mkState [mkNamespace (<["x" := VInt 5]> ∅) None] 0).
Proof.
  eapply (proj1 (IfStmt_eval_branch int_binop 3 (Num 1) _ [] init_state
                   (VInt 1) init_state 4 eq_refl ltac:(lia))
            [PassStmt; AssignStmt (Name "x" Store) (Num 5)] BreakStmt
            [AssignStmt (Name "x" Store) (Num 6)]).
  - reflexivity.
  - reflexivity.
  - reflexivity.
  - reflexivity.
Defined.

Lemma return_value_of_call_witness :
  container (eval_stmt int_binop 3) (eval_expr int_binop 3)
    (Closure "f" ["a"]
       [PassStmt; ReturnStmt (Some (AddOp (Name "a" Load) (Num 1)));
        AssignStmt (Name "a" Store) (Num 0)] 1 0)
    [VInt 4]
    (mkState [mkNamespace ∅ None; mkNamespace ∅ (Some 0)] 0)
  = (Ok (VInt 5),
     mkState [mkNamespace ∅ None; mkNamespace (<["a" := VInt 4]> ∅) (Some 0)] 0).
Proof.
  exact (proj1 (proj2 (return_value_of_call int_binop 3))
           (Closure "f" ["a"]
              [PassStmt; ReturnStmt (Some (AddOp (Name "a" Load) (Num 1)));
               AssignStmt (Name "a" Store) (Num 0)] 1 0)
           [VInt 4]
           (mkState [mkNamespace ∅ None; mkNamespace ∅ (Some 0)] 0)
           [PassStmt]
           (ReturnStmt (Some (AddOp (Name "a" Load) (Num 1))))
           [AssignStmt (Name "a" Store) (Num 0)]
           [RMark (Mark Pass None)]
           (mkState [mkNamespace ∅ None;
                     mkNamespace (<["a" := VInt 4]> ∅) (Some 0)] 1)
           (Mark Return (Some (AddOp (Name "a" Load) (Num 1))))
           (mkState [mkNamespace ∅ None;
                     mkNamespace (<["a" := VInt 4]> ∅) (Some 0)] 1)
           eq_refl eq_refl eq_refl eq_refl eq_refl).
Defined.

(** ** Namespaces *)

Lemma ns_set_lookup_eq i x v h ns :
  h !! i = Some ns ->
  ns_set i x v h !! i
  = Some (mkNamespace (<[x := v]> (bindings ns)) (outerScope ns)).
Proof. intros H. unfold ns_set. now rewrite list_lookup_alter_eq, H. Qed.

Lemma ns_set_lookup_ne i j x v h : i <> j -> ns_set i x v h !! j = h !! j.
Proof. intros H. unfold ns_set. now rewrite list_lookup_alter_ne. Qed.

Lemma ns_set_length i x v h : length (ns_set i x v h) = length h.
Proof. unfold ns_set. apply length_alter. Qed.

Lemma bind_args_length i params args h :
  length (bind_args i params args h) = length h.
Proof.
  unfold bind_args. revert h.
  induction (zip params args) as [| [x v] l IH]; intros h; simpl; auto.
  now rewrite IH, ns_set_length.
Qed.

(** In a heap where every namespace is younger than its outer scope, the
    bound on the chain that lookup follows is never reached. *)
Lemma ns_get_depth h x :
  heap_wf h ->
  forall d d' i, i < d -> i < d' -> ns_get d h i x = ns_get d' h i x.
Proof.
  intros Hwf. induction d as [| d IH]; intros d' i Hd Hd'; [lia |].
  destruct d' as [| d']; [lia |]. simpl.
  destruct (h !! i) as [ns |] eqn:Hi; [| reflexivity].
  destruct (bindings ns !! x); [reflexivity |].
  destruct (outerScope ns) as [o |] eqn:Ho; [| reflexivity].
  pose proof (Hwf _ _ _ Hi Ho). apply IH; lia.
Qed.

(** A name that the current namespace binds itself resolves to that
    binding. *)
Lemma lookup_current_own s ns x v :
  heap s !! CurrentNamespace s = Some ns -> bindings ns !! x = Some v ->
  lookup_current x s = (Ok v, s).
Proof.
  intros Hns Hx. unfold lookup_current.
  destruct (length (heap s)) as [| d] eqn:L.
  - apply nil_length_inv in L. rewrite L in Hns. discriminate.
  - simpl. now rewrite Hns, Hx.
Qed.

(** ** One namespace per definition *)

Lemma FunctionDef_eval ab n name args body s :
  eval_stmt ab (S n) (FunctionDef name args body) s
  = (Ok RNone,
     mkState
       (ns_set (CurrentNamespace s) name
          (VFun (Closure name args body (length (heap s)) (CurrentNamespace s)))
          (heap s ++ [mkNamespace ∅ (Some (CurrentNamespace s))]))
       (CurrentNamespace s)).
Proof. reflexivity. Qed.

(** One call of [counter]: with [n] bound to [k] in the captured
    namespace, the call returns [k + 1] and leaves [n] bound to it there. *)
Lemma counter_call ab n c s ns k :
  fargs c = [] -> fbody c = counter_body ->
  heap s !! namespace c = Some ns -> bindings ns !! "n" = Some (VInt k) ->
  ab Add (VInt k) (VInt 1) = inr (VInt (k + 1)) ->
  container (eval_stmt ab (S (S (S n)))) (eval_expr ab (S (S (S n)))) c [] s
  = (Ok (VInt (k + 1)),
     mkState (ns_set (namespace c) "n" (VInt (k + 1)) (heap s))
       (previousNamespace c)).
Proof.
  intros Hargs Hbody Hns Hn Hab.
  rewrite container_entry by now rewrite Hargs.
  unfold entry_state. rewrite Hargs, Hbody. unfold bind_args.
  simpl zip. simpl fold_left. unfold counter_body.
  set (s0 := mkState (heap s) (namespace c)).
  set (s1 := mkState (ns_set (namespace c) "n" (VInt (k + 1)) (heap s))
               (namespace c)).
  assert (E1 : eval_stmt ab (S (S (S n)))
                 (AssignStmt (Name "n" Store) (AddOp (Name "n" Load) (Num 1))) s0
               = (Ok RNone, s1)).
  { rewrite eval_stmt_Assign.
    erewrite bind_ok by reflexivity.
    erewrite bind_ok.
    2:{ unfold AddOp. rewrite eval_expr_BinOp. erewrite bind_ok.
        2:{ simpl. apply (lookup_current_own s0 ns); [exact Hns | exact Hn]. }
        erewrite bind_ok by reflexivity. rewrite Hab. reflexivity. }
    reflexivity. }
  assert (Hpre : run_through (eval_stmt ab (S (S (S n)))) is_return
                   [AssignStmt (Name "n" Store) (AddOp (Name "n" Load) (Num 1))] s0
                 = Some ([RNone], s1)).
  { cbn [run_through]. rewrite E1. reflexivity. }
  unfold bind at 1.
  rewrite (container_for_return _ _
             [AssignStmt (Name "n" Store) (AddOp (Name "n" Load) (Num 1))]
             _ _ _ (ReturnStmt (Some (Name "n" Load)))
             (Mark Return (Some (Name "n" Load))) s1 [] Hpre eq_refl eq_refl).
  cbn [toEval].
  change (eval_expr ab (S (S (S n))) (Name "n" Load) s1)
    with (lookup_current "n" s1).
  erewrite lookup_current_own.
  - reflexivity.
  - apply ns_set_lookup_eq, Hns.
  - apply lookup_insert_eq.
Qed.

(** C2. Evaluating a [FunctionDef] appends exactly one namespace to the
    heap, empty and with the current namespace as outer scope, and binds
    the name to a closure that holds the address of that namespace. A call
    creates none: its body starts in that same namespace, with the
    arguments bound there, in a heap with as many namespaces as before.
    Hence the bindings persist from call to call: [counter], with [n]
    bound to [k] in the captured namespace, returns [k + 1] and leaves [n]
    bound to [k + 1]; defined at top level and seeded with [n = 0], two
    successive calls return 1 and then 2, and the heap still holds the two
    namespaces that existed after the definition. *)
Theorem namespace_per_definition_shared_by_calls
    (ab : binop -> value -> value -> error + value) :
  (forall n name args body s,
      eval_stmt ab (S n) (FunctionDef name args body) s
      = (Ok RNone,
         mkState
           (ns_set (CurrentNamespace s) name
              (VFun (Closure name args body (length (heap s)) (CurrentNamespace s)))
              (heap s ++ [mkNamespace ∅ (Some (CurrentNamespace s))]))
           (CurrentNamespace s)))
  /\
  (forall ev evx c args s,
      length args = length (fargs c) ->
      container ev evx c args s
      = (let* returnValue := container_for ev evx (fbody c) in
         let* _ := set_current (previousNamespace c) in
         ret returnValue) (entry_state c args s)
      /\ CurrentNamespace (entry_state c args s) = namespace c
      /\ length (heap (entry_state c args s)) = length (heap s))
  /\
  (forall n c s ns k,
      fargs c = [] -> fbody c = counter_body ->
      heap s !! namespace c = Some ns -> bindings ns !! "n" = Some (VInt k) ->
      ab Add (VInt k) (VInt 1) = inr (VInt (k + 1)) ->
      container (eval_stmt ab (S (S (S n)))) (eval_expr ab (S (S (S n)))) c [] s
      = (Ok (VInt (k + 1)),
         mkState (ns_set (namespace c) "n" (VInt (k + 1)) (heap s))
           (previousNamespace c)))
  /\
  (forall n,
      ab Add (VInt 0) (VInt 1) = inr (VInt 1) ->
      ab Add (VInt 1) (VInt 1) = inr (VInt 2) ->
      exists s0 s2 s3,
        eval_stmt ab (S n) (FunctionDef "counter" [] counter_body) init_state
        = (Ok RNone, s0) /\
        length (heap s0) = 2 /\
        eval_expr ab (S (S (S (S n)))) (CallExpr (Name "counter" Load) [])
          (mkState (ns_set 1 "n" (VInt 0) (heap s0)) (CurrentNamespace s0))
        = (Ok (VInt 1), s2) /\
        eval_expr ab (S (S (S (S n)))) (CallExpr (Name "counter" Load) []) s2
        = (Ok (VInt 2), s3) /\
        length (heap s3) = 2).
Proof.
  split; [intros; apply FunctionDef_eval |].
  split.
  { intros ev evx c args s Hlen. split; [now apply container_entry |].
    split; [reflexivity |]. apply bind_args_length. }
  split; [intros; eapply counter_call; eassumption |].
  intros n H01 H12.
  set (c := Closure "counter" [] counter_body 1 0).
  eexists _, _, _. split; [apply FunctionDef_eval |].
  split; [reflexivity |].
  split.
  - rewrite eval_expr_Call.
    erewrite bind_ok by reflexivity.
    erewrite bind_ok by reflexivity.
    cbv beta iota.
    eapply (counter_call ab n c _ _ 0); try reflexivity. exact H01.
  - split.
    + rewrite eval_expr_Call.
      erewrite bind_ok by reflexivity.
      erewrite bind_ok by reflexivity.
      cbv beta iota.
      eapply (counter_call ab n c _ _ 1); try reflexivity. exact H12.
    + reflexivity.
Qed.

Lemma namespace_per_definition_shared_by_calls_witness :
  exists s0 s2 s3,
    eval_stmt int_binop 1 (FunctionDef "counter" [] counter_body) init_state
    = (Ok RNone, s0) /\
    length (heap s0) = 2 /\
    eval_expr int_binop 4 (CallExpr (Name "counter" Load) [])
      (mkState (ns_set 1 "n" (VInt 0) (heap s0)) (CurrentNamespace s0))
    = (Ok (VInt 1), s2) /\
    eval_expr int_binop 4 (CallExpr (Name "counter" Load) []) s2
    = (Ok (VInt 2), s3) /\
    length (heap s3) = 2.
Proof.
  apply (proj2 (proj2 (proj2
           (namespace_per_definition_shared_by_calls int_binop))) 0);
    reflexivity.
Defined.

(** ** The pointer after a call *)

(** C1. Three calls after which [CurrentNamespace] is not what it was
    before the call. With [f], [g] and [h] defined at top level (the
    global namespace 0 is current; their namespaces are 1, 2 and 3): the
    call [f()] fails the arity check and leaves namespace 1 current; the
    call [g()] raises the unbound-name error in its body and leaves
    namespace 2 current; the call [h()] made while namespace 1 is current
    returns 0 and leaves namespace 0 current, the one in which [h] was
    defined. *)
Theorem call_leaves_pointer_moved :
  match exec int_binop 2 three_functions init_state with
  | (Ok tt, s0) =>
      CurrentNamespace s0 = 0 /\
      (exists s1,
          eval_expr int_binop 4 (CallExpr (Name "f" Load) []) s0
          = (Raise (TypeError "f() takes 1 positional arguments but 0 were given"),
             s1)
          /\ CurrentNamespace s1 = 1) /\
      (exists s1,
          eval_expr int_binop 4 (CallExpr (Name "g" Load) []) s0
          = (Raise (NameError "missing"), s1)
          /\ CurrentNamespace s1 = 2) /\
      (exists s1,
          eval_expr int_binop 4 (CallExpr (Name "h" Load) [])
            (mkState (heap s0) 1)
          = (Ok (VInt 0), s1)
          /\ CurrentNamespace s1 = 0)
  | _ => False
  end.
Proof.
  vm_compute. split; [reflexivity |].
  repeat split; eexists; split; reflexivity.
Qed.

(** ** Pass marks in the result of an if statement *)

(** C5, as stated, fails on [if True: pass]: the loop of [IfStmt.eval]
    yields the list that holds the [Pass] mark, where the loop that
    swallows [Pass] and accumulates the results that are not marks yields
    the empty list. *)
Lemma if_pass_mark_is_accumulated :
  eval_stmt int_binop 2 (IfStmt (NameConstant true) [PassStmt] []) init_state
  = (Ok (RList [RMark (Mark Pass None)]), init_state)
  /\ if_for_spec (eval_stmt int_binop 1) [PassStmt] [] init_state
     = (Ok (RList []), init_state)
  /\ if_for (eval_stmt int_binop 1) [PassStmt] [] init_state
     <> if_for_spec (eval_stmt int_binop 1) [PassStmt] [] init_state.
Proof.
  repeat split; try reflexivity. intros H. vm_compute in H. discriminate.
Qed.

(** ** The namespace in which a return expression is evaluated *)

(** C6. The return expression of a call is meant to be evaluated in the
    namespace of the callee; on [return_after_call] the code evaluates it
    elsewhere. When [f(5)] reaches [return a], the call of [g] in the
    statement before has ended by installing the namespace in which [g]
    was defined, the global one, instead of the one that was current when
    [g] was called: [a] is resolved in the global namespace and the call
    returns 7, although the namespace of [f] (at address 2) binds the
    parameter [a] to 5. *)
Lemma return_expression_evaluated_outside_callee :
  match exec int_binop 6 return_after_call init_state with
  | (Ok tt, s) =>
      own_binding s 0 "y" = Some (VInt 7)
      /\ own_binding s 2 "a" = Some (VInt 5)
      /\ own_binding s 0 "x" = Some (VInt 0)
      /\ own_binding s 2 "x" = None
  | _ => False
  end.
Proof. vm_compute. repeat split. Qed.

(** ** Augmented assignment *)

(** C7. For each of the ten augmented-assignment symbols, the constructor
    of [AugAssignStmt] builds the assignment node whose target is the
    store-context name and whose value is the binary operator on the
    load-context name and the right-hand side. The node is built once, by
    the constructor; what is evaluated is that assignment node, so its
    evaluation is the evaluation of the plain assignment from every state
    and with every amount of fuel. *)
Theorem AugAssignStmt_is_plain_assignment
    (ab : binop -> value -> value -> error + value)
    (name : string) (value : expr) (sym : string) (op : binop) :
  In (sym, op) aug_ops ->
  AugAssignStmt_init name value sym
  = Some (AssignStmt (Name name Store) (BinOp op (Name name Load) value))
  /\
  (forall st, AugAssignStmt_init name value sym = Some st ->
     forall fuel s,
       eval_stmt ab fuel st s
       = eval_stmt ab fuel
           (AssignStmt (Name name Store) (BinOp op (Name name Load) value)) s).
Proof.
  intros Hin.
  assert (E : AugAssignStmt_init name value sym
              = Some (AssignStmt (Name name Store)
                        (BinOp op (Name name Load) value))).
  { simpl in Hin.
    repeat (destruct Hin as [Hin | Hin]; [inversion Hin; subst; reflexivity |]).
    contradiction. }
  split; [exact E |].
  intros st Hst fuel s. rewrite E in Hst. now inversion Hst.
Qed.

Lemma AugAssignStmt_is_plain_assignment_witness :
  AugAssignStmt_init "x" (Num 2) "<<="
  = Some (AssignStmt (Name "x" Store) (BinOp Lshift (Name "x" Load) (Num 2))).
Proof.
  apply (AugAssignStmt_is_plain_assignment int_binop "x" (Num 2) "<<=" Lshift).
  simpl. tauto.
Defined.

(** ** The test of an if statement *)

Lemma resolve_own s ns x v :
  heap s !! CurrentNamespace s = Some ns -> bindings ns !! x = Some v ->
  resolve s x = Some v.
Proof.
  intros Hns Hx. unfold resolve.
  destruct (length (heap s)) as [| d] eqn:L.
  - apply nil_length_inv in L. rewrite L in Hns. discriminate.
  - simpl. now rewrite Hns, Hx.
Qed.

(** C9. [if 1: x = 5 else: x = 6] evaluates its body: from every state,
    the current namespace is left with [x] bound to 5, and [x] resolves to
    5 there. The branch is chosen by the comparison [test == True] of the
    host: the body for the values that are equal to [True], which are
    [True] itself and the integer 1, the orelse for every other value. *)
Theorem if_one_assigns_five (ab : binop -> value -> value -> error + value) :
  (forall fuel s,
      3 <= fuel ->
      eval_stmt ab fuel if_one s
      = (Ok (RList [RNone]),
         mkState (ns_set (CurrentNamespace s) "x" (VInt 5) (heap s))
           (CurrentNamespace s)))
  /\
  (forall s ns,
      heap s !! CurrentNamespace s = Some ns ->
      resolve (mkState (ns_set (CurrentNamespace s) "x" (VInt 5) (heap s))
                 (CurrentNamespace s)) "x"
      = Some (VInt 5))
  /\
  (forall n test body orelse s t s1,
      eval_expr ab n test s = (Ok t, s1) ->
      eval_stmt ab (S n) (IfStmt test body orelse) s
      = if_for (eval_stmt ab n) (if eq_True t then body else orelse) [] s1)
  /\
  (forall v, eq_True v = true <-> v = VBool true \/ v = VInt 1).
Proof.
  repeat split.
  - intros fuel s Hfuel.
    apply (eval_stmt_fuel_mono ab 3 fuel); [exact Hfuel | reflexivity | discriminate].
  - intros s ns Hns.
    eapply resolve_own; simpl.
    + apply ns_set_lookup_eq, Hns.
    + apply lookup_insert_eq.
  - intros n test body orelse s t s1 Et.
    now rewrite eval_stmt_If, (bind_ok _ _ _ _ _ Et).
  - destruct v as [| [] | z | |]; simpl; try discriminate; auto.
    intros Hz. apply Z.eqb_eq in Hz. subst. auto.
  - intros [-> | ->]; reflexivity.
Qed.

Lemma if_one_assigns_five_witness :
  eval_stmt int_binop 3 if_one init_state
  = (Ok (RList [RNone]), mkState [mkNamespace (<["x" := VInt 5]> ∅) None] 0)
  /\ resolve (mkState [mkNamespace (<["x" := VInt 5]> ∅) None] 0) "x"
     = Some (VInt 5).
Proof.
  split.
  - apply (proj1 (if_one_assigns_five int_binop) 3 init_state). lia.
  - apply (proj1 (proj2 (if_one_assigns_five int_binop)) init_state
             (mkNamespace ∅ None)).
    reflexivity.
Defined.

(** ** The orelse of a while statement *)

(** C10. The node that [WhileStmt.__init__] builds does not depend on the
    [orelse] argument, so the evaluation of the statement does not either.
    A loop whose test is false at once, and a loop that is left by
    [break], both end without having evaluated the assignment of their
    orelse clause. *)
Theorem WhileStmt_orelse_discarded
    (ab : binop -> value -> value -> error + value)
    (test : expr) (body orelse : list stmt) :
  WhileStmt_init test body orelse = WhileStmt_init test body []
  /\
  (forall fuel s,
      eval_stmt ab fuel (WhileStmt_init test body orelse) s
      = eval_stmt ab fuel (WhileStmt_init test body []) s)
  /\
  eval_stmt ab 3
    (WhileStmt_init (NameConstant false) []
       [AssignStmt (Name "x" Store) (Num 1)]) init_state
  = (Ok (RList []), init_state)
  /\
  eval_stmt ab 3
    (WhileStmt_init (NameConstant true) [BreakStmt]
       [AssignStmt (Name "x" Store) (Num 1)]) init_state
  = (Ok (RList []), init_state).
Proof. repeat split. Qed.

(** ** Evaluation keeps states well formed *)

Lemma value_ok_mono L L' v : L <= L' -> value_ok L v -> value_ok L' v.
Proof. destruct v; simpl; auto. unfold closure_ok. lia. Qed.

Lemma ok_M_weaken {A} L0 L1 (Q : nat -> A -> Prop) c :
  L0 <= L1 -> ok_M L0 Q c -> ok_M L1 Q c.
Proof. intros HL H s r s' Hs Hl. apply H; auto. lia. Qed.

Lemma ok_ret {A} L0 (Q : nat -> A -> Prop) a :
  (forall L, L0 <= L -> Q L a) -> ok_M L0 Q (ret a).
Proof.
  intros HQ s r s' Hs HL H. inversion H; subst.
  repeat split; try apply Hs; auto. intros a' E. inversion E; subst. auto.
Qed.

Lemma ok_raise {A} L0 (Q : nat -> A -> Prop) e : ok_M L0 Q (raise e).
Proof.
  intros s r s' Hs HL H. inversion H; subst.
  repeat split; try apply Hs; auto. discriminate.
Qed.

Lemma ok_timeout {A} L0 (Q : nat -> A -> Prop) : ok_M L0 Q timeout.
Proof.
  intros s r s' Hs HL H. inversion H; subst.
  repeat split; try apply Hs; auto. discriminate.
Qed.

Lemma ok_bind {A B} L0 (Q : nat -> A -> Prop) (R : nat -> B -> Prop) c k :
  ok_M L0 Q c ->
  (forall a L, L0 <= L -> Q L a -> ok_M L R (k a)) ->
  ok_M L0 R (bind c k).
Proof.
  intros Hc Hk s r s' Hs HL H. unfold bind in H.
  destruct (c s) as [[a | e |] s1] eqn:E;
    destruct (Hc _ _ _ Hs HL E) as (Hs1 & Hle & HQ).
  - destruct (Hk a (length (heap s1)) ltac:(lia) (HQ _ eq_refl) _ _ _ Hs1 (le_n _) H)
      as (Hs' & Hle' & HR).
    repeat split; try apply Hs'; auto. lia.
  - inversion H; subst. repeat split; try apply Hs1; auto. discriminate.
  - inversion H; subst. repeat split; try apply Hs1; auto. discriminate.
Qed.

Lemma ns_set_state_ok s i x v :
  state_ok s -> value_ok (length (heap s)) v ->
  state_ok (mkState (ns_set i x v (heap s)) (CurrentNamespace s)).
Proof.
  intros (Hwf & Hcur & Hval) Hv. unfold state_ok; simpl.
  rewrite ns_set_length. repeat split; auto.
  - intros j ns o Hj Ho. unfold ns_set in Hj.
    rewrite list_lookup_alter in Hj. case_decide; subst.
    + destruct (heap s !! j) as [ns0 |] eqn:E; [| discriminate].
      simpl in Hj. inversion Hj; subst. simpl in Ho. eauto.
    + eauto.
  - intros j ns y w Hj Hy. unfold ns_set in Hj.
    rewrite list_lookup_alter in Hj. case_decide; subst.
    + destruct (heap s !! j) as [ns0 |] eqn:E; [| discriminate].
      simpl in Hj. inversion Hj; subst. simpl in Hy.
      rewrite lookup_insert in Hy. case_decide; subst.
      * now inversion Hy; subst.
      * eauto.
    + eauto.
Qed.

Lemma bind_args_state_ok i params : forall args s,
  state_ok s -> Forall (value_ok (length (heap s))) args ->
  state_ok (mkState (bind_args i params args (heap s)) (CurrentNamespace s)).
Proof.
  unfold bind_args.
  induction params as [| p params IH]; intros args s Hs Hargs.
  - simpl. now destruct s.
  - destruct args as [| a args]; [simpl; now destruct s |].
    inversion Hargs; subst. simpl.
    apply (IH args (mkState (ns_set i p a (heap s)) (CurrentNamespace s))).
    + now apply ns_set_state_ok.
    + simpl. now rewrite ns_set_length.
Qed.

Lemma ns_get_bound d h : forall i x v,
  ns_get d h i x = Some v ->
  exists j ns, h !! j = Some ns /\ bindings ns !! x = Some v.
Proof.
  induction d as [| d IH]; intros i x v H; simpl in H; [discriminate |].
  destruct (h !! i) as [ns |] eqn:Hi; [| discriminate].
  destruct (bindings ns !! x) as [w |] eqn:Hx.
  - inversion H; subst. eauto.
  - destruct (outerScope ns); [eauto | discriminate].
Qed.

Lemma ok_get_current L0 : ok_M L0 (fun L i => i < L) get_current.
Proof.
  intros s r s' Hs HL H. inversion H; subst.
  repeat split; try apply Hs; auto. intros a E. inversion E; subst. apply Hs.
Qed.

Lemma ok_set_current L0 i : i < L0 -> ok_M L0 any_result (set_current i).
Proof.
  intros Hi s r s' (Hwf & Hcur & Hval) HL H. inversion H; subst.
  unfold state_ok, any_result; simpl. repeat split; auto. lia.
Qed.

Lemma ok_ns_set L0 i x v :
  value_ok L0 v -> ok_M L0 any_result (modify_heap (ns_set i x v)).
Proof.
  intros Hv s r s' Hs HL H. inversion H; subst. simpl.
  rewrite ns_set_length.
  split; [| split; [lia | intros; exact I]].
  apply ns_set_state_ok; auto. eapply value_ok_mono; eauto.
Qed.

Lemma ok_bind_args L0 i params args :
  Forall (value_ok L0) args ->
  ok_M L0 any_result (modify_heap (bind_args i params args)).
Proof.
  intros Hargs s r s' Hs HL H. inversion H; subst. simpl.
  rewrite bind_args_length.
  split; [| split; [lia | intros; exact I]].
  apply bind_args_state_ok; auto.
  eapply Forall_impl; [exact Hargs |]. intros v. now apply value_ok_mono.
Qed.

Lemma ok_ns_new L0 o : o < L0 -> ok_M L0 (fun L i => i < L) (ns_new o).
Proof.
  intros Ho s r s' (Hwf & Hcur & Hval) HL H. inversion H; subst.
  unfold state_ok; simpl. rewrite length_app; simpl.
  repeat split; try lia.
  - intros j ns o' Hj Ho'.
    destruct (decide (j < length (heap s))) as [Hlt | Hge].
    + rewrite lookup_app_l in Hj by exact Hlt. eauto.
    + rewrite lookup_app_r in Hj by lia.
      destruct (j - length (heap s)) as [| m] eqn:E; simpl in Hj; [| discriminate].
      inversion Hj; subst. simpl in Ho'. inversion Ho'; subst. lia.
  - intros j ns x v Hj Hx.
    destruct (decide (j < length (heap s))) as [Hlt | Hge].
    + rewrite lookup_app_l in Hj by exact Hlt.
      eapply value_ok_mono; [| eauto]. lia.
    + rewrite lookup_app_r in Hj by lia.
      destruct (j - length (heap s)) as [| m] eqn:E; simpl in Hj; [| discriminate].
      inversion Hj; subst. simpl in Hx. now rewrite lookup_empty in Hx.
  - intros a E. inversion E; subst. lia.
Qed.

Lemma ok_lookup_current L0 x : ok_M L0 value_ok (lookup_current x).
Proof.
  intros s r s' Hs HL H. unfold lookup_current in H.
  destruct (ns_get _ _ _ _) as [v |] eqn:E; inversion H; subst.
  - repeat split; try apply Hs; auto. intros a Ea. inversion Ea; subst.
    apply ns_get_bound in E as (j & ns & Hj & Hx).
    destruct Hs as (_ & _ & Hval). eauto.
  - repeat split; try apply Hs; auto. discriminate.
Qed.

Section LoopsOk.
Variable ev : stmt -> M stmt_result.
Variable evx : expr -> M value.
Hypothesis Hev : forall st L, ok_M L any_result (ev st).
Hypothesis Hevx : forall e L, ok_M L value_ok (evx e).

Lemma ok_if_for l : forall result L, ok_M L any_result (if_for ev l result).
Proof.
  induction l as [| st rest IH]; intros result L; simpl.
  - now apply ok_ret.
  - eapply ok_bind; [apply Hev |]. intros r L1 _ _.
    destruct (interrupts r); [now apply ok_ret | apply IH].
Qed.

Lemma ok_while_for l : forall result L, ok_M L any_result (while_for ev l result).
Proof.
  induction l as [| st rest IH]; intros result L; simpl.
  - now apply ok_ret.
  - eapply ok_bind; [apply Hev |]. intros r L1 _ _.
    destruct r as [| [[] e] | items]; simpl; auto; now apply ok_ret.
Qed.

Lemma ok_container_for l : forall L, ok_M L value_ok (container_for ev evx l).
Proof.
  induction l as [| st rest IH]; intros L; simpl.
  - now apply ok_ret.
  - eapply ok_bind; [apply Hev |]. intros r L1 _ _.
    destruct r as [| [[] [e |]] | items]; simpl; auto; now apply ok_ret.
Qed.

Lemma ok_mapM l : forall L,
  ok_M L (fun L vs => Forall (value_ok L) vs) (mapM evx l).
Proof.
  induction l as [| e rest IH]; intros L; simpl.
  - apply ok_ret. constructor.
  - eapply ok_bind; [apply Hevx |]. intros b L1 _ Hb.
    eapply ok_bind; [apply IH |]. intros bs L2 HL2 Hbs.
    apply ok_ret. intros L3 HL3. constructor.
    + eapply value_ok_mono; [| exact Hb]. lia.
    + eapply Forall_impl; [exact Hbs |]. intros v. now apply value_ok_mono.
Qed.

Lemma ok_container c args L :
  closure_ok L c -> Forall (value_ok L) args ->
  ok_M L value_ok (container ev evx c args).
Proof.
  intros [Hns Hprev] Hargs. unfold container.
  eapply ok_bind; [now apply ok_set_current |]. intros _ L1 HL1 _.
  destruct (negb _); [apply ok_raise |].
  eapply ok_bind.
  { apply ok_bind_args. eapply Forall_impl; [exact Hargs |].
    intros v. now apply value_ok_mono. }
  intros _ L2 HL2 _.
  eapply ok_bind; [apply ok_container_for |]. intros rv L3 HL3 Hrv.
  eapply ok_bind; [apply ok_set_current; lia |]. intros _ L4 HL4 _.
  apply ok_ret. intros L5 HL5. eapply value_ok_mono; [| exact Hrv]. lia.
Qed.

End LoopsOk.

Section Invariant.
Variable ab : binop -> value -> value -> error + value.
Hypothesis Hab : forall op a b v L,
  value_ok L a -> value_ok L b -> ab op a b = inr v -> value_ok L v.

Lemma eval_ok n :
  (forall e L, ok_M L value_ok (eval_expr ab n e)) /\
  (forall st L, ok_M L any_result (eval_stmt ab n st)) /\
  (forall test body result L,
      ok_M L any_result (eval_while ab n test body result)).
Proof.
  induction n as [| n (IHe & IHs & IHw)].
  - split; [intros e L | split; [intros st L | intros test body result L]];
      apply ok_timeout.
  - split; [| split].
    + intros e L.
      destruct e as [z | b | id [] | op l r | func args];
        try (now apply ok_ret).
      * apply ok_lookup_current.
      * rewrite eval_expr_BinOp.
        eapply ok_bind; [apply IHe |]. intros a L1 HL1 Ha.
        eapply ok_bind; [apply IHe |]. intros b L2 HL2 Hb.
        destruct (ab op a b) as [e | v] eqn:E; simpl; [apply ok_raise |].
        apply ok_ret. intros L3 HL3.
        apply (Hab op a b v L3); [| | exact E].
        -- eapply value_ok_mono; [| exact Ha]. lia.
        -- eapply value_ok_mono; [| exact Hb]. lia.
      * rewrite eval_expr_Call.
        eapply ok_bind; [apply IHe |]. intros f L1 HL1 Hf.
        eapply ok_bind; [now apply ok_mapM |]. intros vs L2 HL2 Hvs.
        destruct f; try apply ok_raise.
        apply ok_container; auto.
        apply (value_ok_mono L1 L2 (VFun c)); auto.
    + intros st L.
      destruct st as [name args body | test body orelse | test body
                     | target value | e | | |]; try (now apply ok_ret).
      * rewrite eval_stmt_FunctionDef.
        eapply ok_bind; [apply ok_get_current |]. intros prev L1 HL1 Hprev.
        eapply ok_bind; [now apply ok_ns_new |]. intros ns L2 HL2 Hns.
        eapply ok_bind; [| intros; now apply ok_ret].
        apply ok_ns_set. unfold value_ok, closure_ok. cbn in *. lia.
      * rewrite eval_stmt_If.
        eapply ok_bind; [apply IHe |]. intros t L1 _ _. now apply ok_if_for.
      * rewrite eval_stmt_While. apply IHw.
      * rewrite eval_stmt_Assign.
        eapply ok_bind; [apply IHe |]. intros lValue L1 HL1 _.
        eapply ok_bind; [apply IHe |]. intros rValue L2 HL2 Hr.
        destruct lValue; try apply ok_raise.
        eapply ok_bind; [apply ok_get_current |]. intros cur L3 HL3 _.
        eapply ok_bind; [| intros; now apply ok_ret].
        apply ok_ns_set. eapply value_ok_mono; eauto.
    + intros test body result L. rewrite eval_while_S.
      eapply ok_bind; [apply IHe |]. intros t L1 _ _.
      destruct (eq_True t); [| now apply ok_ret].
      eapply ok_bind; [now apply ok_while_for |]. intros x L2 _ _.
      destruct x as [[] result' | r]; try (now apply ok_ret). apply IHw.
Qed.

Lemma eval_stmt_state_ok n st s r s' :
  state_ok s -> eval_stmt ab n st s = (r, s') -> state_ok s'.
Proof.
  intros Hs H.
  now destruct (proj1 (proj2 (eval_ok n)) st 0 s r s' Hs (Nat.le_0_l _) H).
Qed.

Lemma exec_state_ok n prog : forall s r s',
  state_ok s -> exec ab n prog s = (r, s') -> state_ok s'.
Proof.
  induction prog as [| st rest IH]; intros s r s' Hs H; simpl in H.
  - now inversion H; subst.
  - destruct (eval_stmt ab n st s) as [[x | e |] s1] eqn:E;
      apply (eval_stmt_state_ok _ _ _ _ _ Hs) in E.
    + eauto.
    + now inversion H; subst.
    + now inversion H; subst.
Qed.

End Invariant.

Lemma init_state_ok : state_ok init_state.
Proof.
  unfold state_ok, init_state; simpl. repeat split.
  - intros [| i] ns o Hi Ho; simpl in Hi; [| discriminate].
    inversion Hi; subst. discriminate.
  - lia.
  - intros [| i] ns x v Hi Hx; simpl in Hi; [| discriminate].
    inversion Hi; subst. simpl in Hx. now rewrite lookup_empty in Hx.
Qed.

Lemma int_binop_value_ok op a b v L :
  value_ok L a -> value_ok L b -> int_binop op a b = inr v -> value_ok L v.
Proof.
  intros _ _ H. destruct a, b; try discriminate.
  destruct op; simpl in H;
    repeat match type of H with
           | context [if ?c then _ else _] => destruct c
           end; inversion H; exact I.
Qed.

(** ** Assignment *)

Lemma outer_chain_lt h :
  heap_wf h -> forall d i o, In o (outer_chain d h i) -> o < i.
Proof.
  intros Hwf. induction d as [| d IH]; intros i o Hin; simpl in Hin.
  - contradiction.
  - destruct (h !! i) as [ns |] eqn:Hi; [| contradiction].
    destruct (outerScope ns) as [o1 |] eqn:Ho; [| contradiction].
    pose proof (Hwf _ _ _ Hi Ho) as Hlt.
    destruct Hin as [-> | Hin]; [exact Hlt |].
    apply IH in Hin. lia.
Qed.

(** What the write of an assignment touches (beside C8). An assignment
    whose target evaluates to the name [name] and whose
    value evaluates to [v] returns [None], which is no mark, and its only
    effect after these two evaluations is on the namespace that is current
    then: its own bindings get [name] bound to [v], its outer scope stays.
    Every other namespace of the heap is as it was, in particular (in a
    heap where each namespace is younger than its outer scope, as
    [eval_stmt_state_ok] shows every heap that evaluation builds to be)
    every namespace of the chain of outer scopes. A target that is a
    store-context [Name] evaluates to its identifier and changes nothing;
    a value without a call changes nothing either. *)
Theorem AssignStmt_writes_current_namespace_only
    (ab : binop -> value -> value -> error + value)
    (n fuel : nat) (target rhs : expr) (s s1 s2 : state)
    (name : string) (v : value) :
  eval_expr ab n target s = (Ok (VStr name), s1) ->
  eval_expr ab n rhs s1 = (Ok v, s2) ->
  n < fuel ->
  let cur := CurrentNamespace s2 in
  let s' := mkState (ns_set cur name v (heap s2)) cur in
  eval_stmt ab fuel (AssignStmt target rhs) s = (Ok RNone, s')
  /\ (forall ns, heap s2 !! cur = Some ns ->
        heap s' !! cur
        = Some (mkNamespace (<[name := v]> (bindings ns)) (outerScope ns)))
  /\ (forall i, i <> cur -> heap s' !! i = heap s2 !! i)
  /\ (heap_wf (heap s2) ->
        forall o, In o (outer_chain (length (heap s2)) (heap s2) cur) ->
                  heap s' !! o = heap s2 !! o)
  /\ length (heap s') = length (heap s2)
  /\ (forall id, target = Name id Store -> name = id /\ s1 = s)
  /\ (call_free rhs = true -> s2 = s1).
Proof.
  intros Et Ev Hfuel cur s'.
  split.
  { apply (eval_stmt_fuel_mono ab (S n) fuel); [lia | | discriminate].
    now rewrite eval_stmt_Assign, (bind_ok _ _ _ _ _ Et), (bind_ok _ _ _ _ _ Ev). }
  split; [intros ns Hns; now apply ns_set_lookup_eq |].
  split; [intros i Hi; apply ns_set_lookup_ne; congruence |].
  split.
  { intros Hwf o Hin. apply ns_set_lookup_ne.
    apply (outer_chain_lt _ Hwf) in Hin. lia. }
  split; [apply ns_set_length |].
  split.
  - intros id ->. destruct n as [| n]; [discriminate |].
    simpl in Et. now inversion Et.
  - intros Hcf. eapply call_free_pure; eauto.
Qed.

Lemma AssignStmt_writes_current_namespace_only_witness :
  eval_stmt int_binop 3
    (AssignStmt (Name "x" Store) (AddOp (Name "x" Load) (Num 1)))
    (mkState [mkNamespace (<["x" := VInt 1]> ∅) None; mkNamespace ∅ (Some 0)] 1)
  = (Ok RNone,
     mkState [mkNamespace (<["x" := VInt 1]> ∅) None;
              mkNamespace (<["x" := VInt 2]> ∅) (Some 0)] 1).
Proof.
  exact (proj1 (AssignStmt_writes_current_namespace_only int_binop 2 3
                  (Name "x" Store) (AddOp (Name "x" Load) (Num 1))
                  (mkState [mkNamespace (<["x" := VInt 1]> ∅) None;
                            mkNamespace ∅ (Some 0)] 1)
                  (mkState [mkNamespace (<["x" := VInt 1]> ∅) None;
                            mkNamespace ∅ (Some 0)] 1)
                  (mkState [mkNamespace (<["x" := VInt 1]> ∅) None;
                            mkNamespace ∅ (Some 0)] 1)
                  "x" (VInt 2) eq_refl eq_refl ltac:(lia))).
Defined.

(** ** An assignment whose value makes a call *)

(** C8. An assignment is meant to write into the namespace that is current
    and into no outer one; on [assignment_from_call] the code writes into
    an outer one. The body of [f] runs with the namespace of [f] (at
    address 2, outer scope 0) current; the call of [g] in the value of
    [x = g()] ends by installing the namespace in which [g] was defined,
    the global one at address 0, and [AssignStmt.eval] reads the pointer
    after that: [x] gets bound in namespace 0, where it was not bound
    before, and not in namespace 2. The same is seen when the statement
    is evaluated by itself from a state in which namespace 2 is current. *)
Theorem assignment_after_call_writes_outer_namespace :
  match exec int_binop 6 assignment_from_call init_state with
  | (Ok tt, s) =>
      own_binding s 0 "x" = Some (VInt 0)
      /\ own_binding s 2 "x" = None
      /\ (outerScope <$> heap s !! 2) = Some (Some 0)
  | _ => False
  end
  /\
  match exec int_binop 6 (take 2 assignment_from_call) init_state with
  | (Ok tt, s0) =>
      own_binding s0 0 "x" = None
      /\ match eval_stmt int_binop 5
                 (AssignStmt (Name "x" Store) (CallExpr (Name "g" Load) []))
                 (mkState (heap s0) 2) with
         | (Ok RNone, s1) =>
             CurrentNamespace s1 = 0
             /\ own_binding s1 0 "x" = Some (VInt 0)
             /\ own_binding s1 2 "x" = None
         | _ => False
         end
  | _ => False
  end.
Proof. vm_compute. repeat split. Qed.

(** * Further properties *)

(** ** Relations that every step of evaluation keeps *)

(** A reflexive and transitive relation on states that the three
    primitive changes of state keep (moving the pointer, setting a name in
    a namespace, creating a namespace) is kept by every evaluation. *)
Section Steps.
Variable R : state -> state -> Prop.
Hypothesis R_refl : forall s, R s s.
Hypothesis R_trans : forall s1 s2 s3, R s1 s2 -> R s2 s3 -> R s1 s3.
Hypothesis R_set_current : forall s i, R s (mkState (heap s) i).
Hypothesis R_ns_set :
  forall s i x v, R s (mkState (ns_set i x v (heap s)) (CurrentNamespace s)).
Hypothesis R_ns_new :
  forall s o,
    R s (mkState (heap s ++ [mkNamespace ∅ (Some o)]) (CurrentNamespace s)).

Lemma steps_ret {A} (a : A) : steps_in R (ret a).
Proof. intros s r s' H. inversion H; subst. apply R_refl. Qed.

Lemma steps_raise {A} e : steps_in R (@raise A e).
Proof. intros s r s' H. inversion H; subst. apply R_refl. Qed.

Lemma steps_timeout {A} : steps_in R (@timeout A).
Proof. intros s r s' H. inversion H; subst. apply R_refl. Qed.

Lemma steps_bind {A B} (c : M A) (k : A -> M B) :
  steps_in R c -> (forall a, steps_in R (k a)) -> steps_in R (bind c k).
Proof.
  intros Hc Hk s r s' H. unfold bind in H.
  destruct (c s) as [[a | e |] s1] eqn:E; apply Hc in E.
  - apply Hk in H. eauto.
  - now inversion H; subst.
  - now inversion H; subst.
Qed.

Lemma steps_get_current : steps_in R get_current.
Proof. intros s r s' H. inversion H; subst. apply R_refl. Qed.

Lemma steps_set_current i : steps_in R (set_current i).
Proof. intros s r s' H. inversion H; subst. apply R_set_current. Qed.

Lemma steps_ns_set i x v : steps_in R (modify_heap (ns_set i x v)).
Proof. intros s r s' H. inversion H; subst. apply R_ns_set. Qed.

Lemma steps_ns_new o : steps_in R (ns_new o).
Proof. intros s r s' H. inversion H; subst. apply R_ns_new. Qed.

Lemma steps_lookup_current x : steps_in R (lookup_current x).
Proof.
  intros s r s' H. unfold lookup_current in H.
  destruct (ns_get _ _ _ _); inversion H; subst; apply R_refl.
Qed.

Lemma steps_bind_args i params args :
  steps_in R (modify_heap (bind_args i params args)).
Proof.
  intros s r s' H. inversion H; subst. clear H. unfold bind_args.
  generalize (zip params args). intros l. revert s.
  induction l as [| [x v] l IH]; intros s; simpl.
  - destruct s. apply R_refl.
  - eapply R_trans; [apply (R_ns_set s i x v) |].
    apply (IH (mkState (ns_set i x v (heap s)) (CurrentNamespace s))).
Qed.

Section StepsLoops.
Variable ev : stmt -> M stmt_result.
Variable evx : expr -> M value.
Hypothesis Hev : forall st, steps_in R (ev st).
Hypothesis Hevx : forall e, steps_in R (evx e).

Lemma steps_if_for l : forall result, steps_in R (if_for ev l result).
Proof.
  induction l as [| st rest IH]; intros result; simpl.
  - apply steps_ret.
  - apply steps_bind; [apply Hev |]. intros r.
    destruct (interrupts r); [apply steps_ret | apply IH].
Qed.

Lemma steps_while_for l : forall result, steps_in R (while_for ev l result).
Proof.
  induction l as [| st rest IH]; intros result; simpl.
  - apply steps_ret.
  - apply steps_bind; [apply Hev |].
    intros [| [[] e] | items]; simpl; auto using steps_ret.
Qed.

Lemma steps_container_for l : steps_in R (container_for ev evx l).
Proof.
  induction l as [| st rest IH]; simpl.
  - apply steps_ret.
  - apply steps_bind; [apply Hev |].
    intros [| [[] [e |]] | items]; simpl; auto using steps_ret.
Qed.

Lemma steps_mapM l : steps_in R (mapM evx l).
Proof.
  induction l as [| e rest IH]; simpl.
  - apply steps_ret.
  - apply steps_bind; [apply Hevx |]. intros b.
    apply steps_bind; [apply IH |]. intros bs. apply steps_ret.
Qed.

Lemma steps_container c args : steps_in R (container ev evx c args).
Proof.
  unfold container.
  apply steps_bind; [apply steps_set_current |]. intros _.
  destruct (negb _); [apply steps_raise |].
  apply steps_bind; [apply steps_bind_args |]. intros _.
  apply steps_bind; [apply steps_container_for |]. intros rv.
  apply steps_bind; [apply steps_set_current |]. intros _.
  apply steps_ret.
Qed.
End StepsLoops.

Lemma eval_steps_in ab n :
  (forall e, steps_in R (eval_expr ab n e)) /\
  (forall st, steps_in R (eval_stmt ab n st)) /\
  (forall test body result, steps_in R (eval_while ab n test body result)).
Proof.
  induction n as [| n (IHe & IHs & IHw)].
  - split; [intros e | split; [intros st | intros test body result]];
      apply steps_timeout.
  - split; [| split].
    + intros e. destruct e as [z | b | id [] | op l r | func args];
        try apply steps_ret.
      * apply steps_lookup_current.
      * rewrite eval_expr_BinOp.
        apply steps_bind; [apply IHe |]. intros a.
        apply steps_bind; [apply IHe |]. intros b.
        destruct (ab op a b); [apply steps_raise | apply steps_ret].
      * rewrite eval_expr_Call.
        apply steps_bind; [apply IHe |]. intros f.
        apply steps_bind; [now apply steps_mapM |]. intros vs.
        destruct f; try apply steps_raise. now apply steps_container.
    + intros st.
      destruct st as [name args body | test body orelse | test body
                     | target value | e | | |]; try apply steps_ret.
      * rewrite eval_stmt_FunctionDef.
        apply steps_bind; [apply steps_get_current |]. intros prev.
        apply steps_bind; [apply steps_ns_new |]. intros ns.
        apply steps_bind; [apply steps_ns_set |]. intros _. apply steps_ret.
      * rewrite eval_stmt_If.
        apply steps_bind; [apply IHe |]. intros t. now apply steps_if_for.
      * rewrite eval_stmt_While. apply IHw.
      * rewrite eval_stmt_Assign.
        apply steps_bind; [apply IHe |]. intros lValue.
        apply steps_bind; [apply IHe |]. intros rValue.
        destruct lValue; try apply steps_raise.
        apply steps_bind; [apply steps_get_current |]. intros cur.
        apply steps_bind; [apply steps_ns_set |]. intros _. apply steps_ret.
    + intros test body result. rewrite eval_while_S.
      apply steps_bind; [apply IHe |]. intros t.
      destruct (eq_True t); [| apply steps_ret].
      apply steps_bind; [now apply steps_while_for |].
      intros [[] result' | r]; try apply steps_ret. apply IHw.
Qed.

End Steps.

Lemma heap_grows_refl s : heap_grows s s.
Proof. intros i ns H. eauto. Qed.

Lemma heap_grows_trans s1 s2 s3 :
  heap_grows s1 s2 -> heap_grows s2 s3 -> heap_grows s1 s3.
Proof.
  intros H12 H23 i ns H.
  destruct (H12 _ _ H) as (ns2 & H2 & Ho2 & Hb2).
  destruct (H23 _ _ H2) as (ns3 & H3 & Ho3 & Hb3).
  exists ns3. repeat split; auto. congruence.
Qed.

Lemma heap_grows_ns_set s i x v :
  heap_grows s (mkState (ns_set i x v (heap s)) (CurrentNamespace s)).
Proof.
  intros j ns H. simpl. unfold ns_set. rewrite list_lookup_alter.
  case_decide; subst.
  - rewrite H. simpl. eexists. split; [reflexivity |]. split; [reflexivity |].
    simpl. intros y Hy. rewrite lookup_insert. case_decide; eauto.
  - eauto.
Qed.

Lemma heap_grows_ns_new s o :
  heap_grows s (mkState (heap s ++ [mkNamespace ∅ (Some o)]) (CurrentNamespace s)).
Proof.
  intros j ns H. simpl. exists ns. split; [| auto].
  rewrite lookup_app_l; [exact H |]. eapply lookup_lt_Some; eauto.
Qed.

(** ** Values that a computation returns *)

Lemma returns_bind {A B} (Q : B -> Prop) (c : M A) (k : A -> M B) :
  (forall a, returns Q (k a)) -> returns Q (bind c k).
Proof.
  intros Hk s b s' H. apply bind_inv_ok in H as (a & s1 & _ & H).
  exact (Hk a s1 b s' H).
Qed.

Lemma returns_bind_with {A B} (P : A -> Prop) (Q : B -> Prop)
    (c : M A) (k : A -> M B) :
  returns P c -> (forall a, P a -> returns Q (k a)) -> returns Q (bind c k).
Proof.
  intros Hc Hk s b s' H. apply bind_inv_ok in H as (a & s1 & Ha & H).
  exact (Hk a (Hc _ _ _ Ha) s1 b s' H).
Qed.

Lemma returns_ret {A} (Q : A -> Prop) a : Q a -> returns Q (ret a).
Proof. intros Ha s a' s' H. now inversion H; subst. Qed.

Lemma returns_raise {A} (Q : A -> Prop) e : returns Q (raise e).
Proof. intros s a s' H. discriminate. Qed.

(** ** What a call without nested calls can change *)

Lemma toc_ret {A} (a : A) : touches_only_current (ret a).
Proof. intros s r s' H. inversion H; subst. auto. Qed.

Lemma toc_raise {A} e : touches_only_current (@raise A e).
Proof. intros s r s' H. inversion H; subst. auto. Qed.

Lemma toc_timeout {A} : touches_only_current (@timeout A).
Proof. intros s r s' H. inversion H; subst. auto. Qed.

Lemma toc_bind {A B} (c : M A) (k : A -> M B) :
  touches_only_current c -> (forall a, touches_only_current (k a)) ->
  touches_only_current (bind c k).
Proof.
  intros Hc Hk s r s' H. unfold bind in H.
  destruct (c s) as [[a | e |] s1] eqn:E;
    destruct (Hc _ _ _ E) as (Hp & Hl & Hf).
  - destruct (Hk a _ _ _ H) as (Hp' & Hl' & Hf').
    split; [congruence |]. split; [lia |].
    intros j Hj Hlt. rewrite Hf' by (rewrite ?Hp; auto; lia). auto.
  - inversion H; subst. auto.
  - inversion H; subst. auto.
Qed.

Lemma toc_bind_with {A B} (P : A -> Prop) (c : M A) (k : A -> M B) :
  touches_only_current c -> returns P c ->
  (forall a, P a -> touches_only_current (k a)) ->
  touches_only_current (bind c k).
Proof.
  intros Hc HP Hk s r s' H. unfold bind in H.
  destruct (c s) as [[a | e |] s1] eqn:E;
    destruct (Hc _ _ _ E) as (Hp & Hl & Hf).
  - destruct (Hk a (HP _ _ _ E) _ _ _ H) as (Hp' & Hl' & Hf').
    split; [congruence |]. split; [lia |].
    intros j Hj Hlt. rewrite Hf' by (rewrite ?Hp; auto; lia). auto.
  - inversion H; subst. auto.
  - inversion H; subst. auto.
Qed.

Lemma toc_expr ab n e :
  call_free e = true -> touches_only_current (eval_expr ab n e).
Proof.
  intros Hcf s r s' H. rewrite (call_free_pure ab n e s r s' Hcf H). auto.
Qed.

(** [CurrentNamespace.set(name, v)]. *)
Lemma toc_set_in_current name v :
  touches_only_current
    (let* cur := get_current in
     let* _ := modify_heap (ns_set cur name v) in
     ret RNone).
Proof.
  intros s r s' H. inversion H; subst. simpl. rewrite ns_set_length.
  split; [reflexivity |]. split; [lia |].
  intros j Hj _. apply ns_set_lookup_ne. congruence.
Qed.

Lemma toc_FunctionDef ab n name args body :
  touches_only_current (eval_stmt ab (S n) (FunctionDef name args body)).
Proof.
  intros s r s' H. rewrite FunctionDef_eval in H. inversion H; subst. simpl.
  rewrite ns_set_length, length_app. simpl.
  split; [reflexivity |]. split; [lia |].
  intros j Hj Hlt. rewrite ns_set_lookup_ne by congruence.
  now apply lookup_app_l.
Qed.

Section QuietLoops.
Variable ev : stmt -> M stmt_result.

Lemma toc_if_for l : forall result,
  (forall st, In st l -> touches_only_current (ev st)) ->
  touches_only_current (if_for ev l result).
Proof.
  induction l as [| st rest IH]; intros result Hev; simpl.
  - apply toc_ret.
  - apply toc_bind; [apply Hev; now left |]. intros r.
    destruct (interrupts r); [apply toc_ret |].
    apply IH. intros st' Hin. apply Hev. now right.
Qed.

Lemma toc_while_for l : forall result,
  (forall st, In st l -> touches_only_current (ev st)) ->
  touches_only_current (while_for ev l result).
Proof.
  induction l as [| st rest IH]; intros result Hev; simpl.
  - apply toc_ret.
  - assert (Hrest : forall st', In st' rest -> touches_only_current (ev st'))
      by (intros st' Hin; apply Hev; now right).
    apply toc_bind; [apply Hev; now left |].
    intros [| [[] e] | items]; simpl; auto using toc_ret.
Qed.

Lemma if_for_call_free l : forall result,
  (forall st, In st l -> returns mark_call_free (ev st)) ->
  returns mark_call_free (if_for ev l result).
Proof.
  induction l as [| st rest IH]; intros result Hev; simpl.
  - now apply returns_ret.
  - eapply returns_bind_with; [apply Hev; now left |]. intros r Hr.
    destruct (interrupts r); [now apply returns_ret |].
    apply IH. intros st' Hin. apply Hev. now right.
Qed.

Lemma while_for_call_free l : forall result,
  (forall st, In st l -> returns mark_call_free (ev st)) ->
  returns for_exit_call_free (while_for ev l result).
Proof.
  induction l as [| st rest IH]; intros result Hev; simpl.
  - now apply returns_ret.
  - assert (Hrest : forall st', In st' rest -> returns mark_call_free (ev st'))
      by (intros st' Hin; apply Hev; now right).
    eapply returns_bind_with; [apply Hev; now left |]. intros r Hr.
    destruct r as [| [[] e] | items]; try (now apply returns_ret); now apply IH.
Qed.

Lemma toc_container_for evx l :
  (forall st, In st l -> touches_only_current (ev st)) ->
  (forall st, In st l -> returns mark_call_free (ev st)) ->
  (forall e, call_free e = true -> touches_only_current (evx e)) ->
  touches_only_current (container_for ev evx l).
Proof.
  intros Hev Hret Hevx. induction l as [| st rest IH]; simpl.
  - apply toc_ret.
  - assert (IH' : touches_only_current (container_for ev evx rest)).
    { apply IH; intros st' Hin; [apply Hev | apply Hret]; now right. }
    eapply toc_bind_with; [apply Hev; now left | apply Hret; now left |].
    intros r Hr.
    destruct r as [| [[] [e |]] | items]; simpl in *; auto using toc_ret.
Qed.
End QuietLoops.

Lemma eval_quiet ab n :
  (forall st, stmt_quiet st = true ->
     touches_only_current (eval_stmt ab n st)
     /\ returns mark_call_free (eval_stmt ab n st)) /\
  (forall test body result,
     call_free test = true -> forallb stmt_quiet body = true ->
     touches_only_current (eval_while ab n test body result)
     /\ returns mark_call_free (eval_while ab n test body result)).
Proof.
  induction n as [| n (IHs & IHw)].
  - split; [intros st _ | intros test body result _ _];
      (split; [apply toc_timeout | intros s a s' H; discriminate]).
  - assert (Hl : forall l, forallb stmt_quiet l = true ->
              (forall st, In st l -> touches_only_current (eval_stmt ab n st))
              /\ (forall st, In st l -> returns mark_call_free (eval_stmt ab n st))).
    { intros l Hl. split; intros st Hin; apply IHs;
        now apply (proj1 (forallb_forall stmt_quiet l) Hl). }
    split.
    + intros st Hq.
      destruct st as [name args body | test body orelse | test body
                     | target value | [e |] | | |]; simpl in Hq;
        try (split; [apply toc_ret | now apply returns_ret]).
      * split; [apply toc_FunctionDef |].
        rewrite eval_stmt_FunctionDef.
        apply returns_bind. intros prev. apply returns_bind. intros ns.
        apply returns_bind. intros _. now apply returns_ret.
      * apply andb_prop in Hq as [Hq Ho]. apply andb_prop in Hq as [Ht Hb].
        rewrite eval_stmt_If. split.
        -- apply toc_bind; [now apply toc_expr |]. intros t.
           apply toc_if_for.
           destruct (eq_True t); [apply (Hl body Hb) | apply (Hl orelse Ho)].
        -- apply returns_bind. intros t. apply if_for_call_free.
           destruct (eq_True t); [apply (Hl body Hb) | apply (Hl orelse Ho)].
      * apply andb_prop in Hq as [Ht Hb].
        rewrite eval_stmt_While. now apply IHw.
      * apply andb_prop in Hq as [Ht Hv].
        rewrite eval_stmt_Assign. split.
        -- apply toc_bind; [now apply toc_expr |]. intros lValue.
           apply toc_bind; [now apply toc_expr |]. intros rValue.
           destruct lValue; try apply toc_raise. apply toc_set_in_current.
        -- apply returns_bind. intros lValue. apply returns_bind. intros rValue.
           destruct lValue; try apply returns_raise.
           apply returns_bind. intros cur. apply returns_bind. intros _.
           now apply returns_ret.
    + intros test body result Ht Hb. rewrite eval_while_S. split.
      * apply toc_bind; [now apply toc_expr |]. intros t.
        destruct (eq_True t); [| apply toc_ret].
        apply toc_bind; [apply toc_while_for, (Hl body Hb) |].
        intros [[] result' | r]; try apply toc_ret. now apply IHw.
      * apply returns_bind. intros t.
        destruct (eq_True t); [| now apply returns_ret].
        eapply returns_bind_with; [apply while_for_call_free, (Hl body Hb) |].
        intros [[] result' | r] Hx; simpl in Hx.
        -- now apply returns_ret.
        -- now apply IHw.
        -- now apply returns_ret.
Qed.

Lemma bind_args_lookup_ne i j params args : forall h,
  i <> j -> bind_args i params args h !! j = h !! j.
Proof.
  unfold bind_args. generalize (zip params args). intros l.
  induction l as [| [x v] l IH]; intros h Hij; simpl; auto.
  rewrite IH by exact Hij. now apply ns_set_lookup_ne.
Qed.

Lemma container_frame ab n c args s r s' :
  forallb stmt_quiet (fbody c) = true ->
  container (eval_stmt ab n) (eval_expr ab n) c args s = (r, s') ->
  length (heap s) <= length (heap s')
  /\ forall j, j <> namespace c -> j < length (heap s) ->
                heap s' !! j = heap s !! j.
Proof.
  intros Hq H. unfold container in H.
  unfold bind at 1 in H. unfold set_current at 1 in H.
  destruct (negb _).
  { inversion H; subst. simpl. auto. }
  unfold bind at 1 in H. unfold modify_heap at 1 in H. simpl in H.
  set (s0 := mkState (bind_args (namespace c) (fargs c) args (heap s))
               (namespace c)) in H.
  assert (Hbody : touches_only_current
                    (container_for (eval_stmt ab n) (eval_expr ab n) (fbody c))).
  { apply toc_container_for.
    - intros st Hin. apply (eval_quiet ab n).
      now apply (proj1 (forallb_forall stmt_quiet _) Hq).
    - intros st Hin. apply (eval_quiet ab n).
      now apply (proj1 (forallb_forall stmt_quiet _) Hq).
    - intros e. apply toc_expr. }
  assert (Hs0 : length (heap s0) = length (heap s))
    by apply bind_args_length.
  assert (Hend : forall s1,
             length (heap s0) <= length (heap s1) ->
             (forall j, j <> namespace c -> j < length (heap s0) ->
                        heap s1 !! j = heap s0 !! j) ->
             length (heap s) <= length (heap s1)
             /\ forall j, j <> namespace c -> j < length (heap s) ->
                          heap s1 !! j = heap s !! j).
  { intros s1 Hl Hf. split; [lia |]. intros j Hj Hlt.
    rewrite Hf by (auto; lia). simpl. apply bind_args_lookup_ne. congruence. }
  unfold bind in H.
  destruct (container_for (eval_stmt ab n) (eval_expr ab n) (fbody c) s0)
    as [[rv | e |] s1] eqn:E;
    destruct (Hbody _ _ _ E) as (_ & Hl & Hf); simpl in Hf;
    inversion H; subst; simpl; now apply Hend.
Qed.

(** X2. A call whose body calls nothing, whether it returns, raises or
    runs out of fuel, changes no namespace that existed before the call
    other than the captured namespace of the callee, and removes none:
    what the body binds is bound there, and the bindings of the caller
    and of every other scope are as they were. *)
Theorem call_touches_only_callee_namespace ab n c args s r s' :
  forallb stmt_quiet (fbody c) = true ->
  container (eval_stmt ab n) (eval_expr ab n) c args s = (r, s') ->
  length (heap s) <= length (heap s')
  /\ forall j, j <> namespace c -> j < length (heap s) ->
                heap s' !! j = heap s !! j.
Proof. apply container_frame. Qed.

Lemma call_touches_only_callee_namespace_witness :
  length [mkNamespace (<["x" := VInt 1]> ∅) None; mkNamespace ∅ (Some 0)]
  <= length [mkNamespace (<["x" := VInt 1]> ∅) None;
             mkNamespace (<["x" := VInt 5]> (<["a" := VInt 4]> ∅)) (Some 0)]
  /\ forall j, j <> 1 -> j < 2 ->
       [mkNamespace (<["x" := VInt 1]> ∅) None;
        mkNamespace (<["x" := VInt 5]> (<["a" := VInt 4]> ∅)) (Some 0)] !! j
       = [mkNamespace (<["x" := VInt 1]> ∅) None; mkNamespace ∅ (Some 0)] !! j.
Proof.
  exact (call_touches_only_callee_namespace int_binop 3
           (Closure "f" ["a"]
              [AssignStmt (Name "x" Store) (AddOp (Name "a" Load) (Num 1));
               ReturnStmt (Some (Name "x" Load))] 1 0)
           [VInt 4]
           (mkState [mkNamespace (<["x" := VInt 1]> ∅) None;
                     mkNamespace ∅ (Some 0)] 0)
           (Ok (VInt 5))
           (mkState [mkNamespace (<["x" := VInt 1]> ∅) None;
                     mkNamespace (<["x" := VInt 5]> (<["a" := VInt 4]> ∅))
                       (Some 0)] 0)
           eq_refl eq_refl).
Defined.

(** ** Marks at the top level of a function body *)

Lemma container_for_skip ev evx pre : forall s rs s1 post,
  run_through ev is_return pre s = Some (rs, s1) ->
  container_for ev evx (pre ++ post) s = container_for ev evx post s1.
Proof.
  induction pre as [| p pre IH]; intros s rs s1 post H; simpl in H.
  - now inversion H.
  - destruct (ev p s) as [[r0 | e |] s0] eqn:E0; try discriminate.
    destruct (is_return r0) eqn:Hr0; try discriminate.
    destruct (run_through ev is_return pre s0) as [[rs' s'] |] eqn:R;
      try discriminate.
    inversion H; subst.
    change ((p :: pre) ++ post) with (p :: (pre ++ post)).
    rewrite (container_for_cons_through _ _ _ _ _ _ _ E0 Hr0). eapply IH; eauto.
Qed.

(** X3. A [Break], [Continue] or [Pass] mark that a statement [st] hands
    to the top level of a function body is dropped: the call goes on with
    the statements [post] after [st], from the state that [st] left, and
    its value is whatever they yield. *)
Theorem mark_at_body_top_level_is_dropped ab n c args s pre st post rs s1 m s2 :
  length args = length (fargs c) ->
  fbody c = pre ++ st :: post ->
  run_through (eval_stmt ab n) is_return pre (entry_state c args s)
  = Some (rs, s1) ->
  eval_stmt ab n st s1 = (Ok (RMark m), s2) ->
  type m <> Return ->
  container (eval_stmt ab n) (eval_expr ab n) c args s
  = (let* returnValue :=
       container_for (eval_stmt ab n) (eval_expr ab n) post in
     let* _ := set_current (previousNamespace c) in
     ret returnValue) s2.
Proof.
  intros Hlen Hbody Hpre Est Hm.
  rewrite (container_entry _ _ _ _ _ Hlen), Hbody.
  unfold bind at 1 3.
  rewrite (container_for_skip _ _ _ _ _ _ (st :: post) Hpre).
  rewrite (container_for_cons_through _ _ st post s1 (RMark m) s2 Est);
    [reflexivity |].
  simpl. destruct (type m); congruence.
Qed.

Lemma mark_at_body_top_level_is_dropped_witness :
  container (eval_stmt int_binop 3) (eval_expr int_binop 3)
    (Closure "f" [] [BreakStmt; ReturnStmt (Some (Num 1))] 1 0) []
    (mkState [mkNamespace ∅ None; mkNamespace ∅ (Some 0)] 0)
  = (Ok (VInt 1), mkState [mkNamespace ∅ None; mkNamespace ∅ (Some 0)] 0).
Proof.
  exact (mark_at_body_top_level_is_dropped int_binop 3
           (Closure "f" [] [BreakStmt; ReturnStmt (Some (Num 1))] 1 0) []
           (mkState [mkNamespace ∅ None; mkNamespace ∅ (Some 0)] 0)
           [] BreakStmt [ReturnStmt (Some (Num 1))] []
           (mkState [mkNamespace ∅ None; mkNamespace ∅ (Some 0)] 1)
           (Mark Break None)
           (mkState [mkNamespace ∅ None; mkNamespace ∅ (Some 0)] 1)
           eq_refl eq_refl eq_refl eq_refl ltac:(discriminate)).
Defined.

(** ** How a while statement ends, or does not *)

(** X4. When, after [k] iterations that ran to their end, the test
    evaluates to a value that is not equal to [True], the statement
    returns the list accumulated over those iterations, in the state the
    test left; with [k = 0] the body is never evaluated and the list is
    empty. *)
Theorem while_ends_when_test_fails ab n k test body s result s1 t s2 fuel :
  while_rounds ab n k test body [] s = Some (result, s1) ->
  eval_expr ab n test s1 = (Ok t, s2) -> eq_True t = false ->
  n + k + 2 <= fuel ->
  eval_stmt ab fuel (WhileStmt test body) s = (Ok (RList result), s2).
Proof.
  intros Hrounds Et Ht Hfuel.
  destruct fuel as [| f]; [lia |].
  rewrite eval_stmt_While.
  eapply (while_rounds_eval ab n k _ _ _ _ _ _ Hrounds (S n)).
  - now rewrite eval_while_S, (bind_ok _ _ _ _ _ Et), Ht.
  - discriminate.
  - lia.
Qed.

Lemma while_ends_when_test_fails_witness :
  eval_stmt int_binop 6
    (WhileStmt (Name "go" Load)
       [AssignStmt (Name "go" Store) (NameConstant false); PassStmt])
    (mkState [mkNamespace (<["go" := VBool true]> ∅) None] 0)
  = (Ok (RList [RNone; RMark (Mark Pass None)]),
     mkState [mkNamespace (<["go" := VBool false]> (<["go" := VBool true]> ∅))
                None] 0).
Proof.
  exact (while_ends_when_test_fails int_binop 3 1 (Name "go" Load)
           [AssignStmt (Name "go" Store) (NameConstant false); PassStmt]
           (mkState [mkNamespace (<["go" := VBool true]> ∅) None] 0)
           [RNone; RMark (Mark Pass None)]
           (mkState [mkNamespace
                       (<["go" := VBool false]> (<["go" := VBool true]> ∅))
                       None] 0)
           (VBool false)
           (mkState [mkNamespace
                       (<["go" := VBool false]> (<["go" := VBool true]> ∅))
                       None] 0)
           6 eq_refl eq_refl eq_refl ltac:(lia)).
Defined.

Lemma while_for_idle ab n body : forall result s r s',
  forallb idle body = true ->
  while_for (eval_stmt ab n) body result s = (r, s') ->
  s' = s /\ (r = OutOfFuel \/ exists result', r = Ok (ForDone false result')).
Proof.
  induction body as [| st rest IH]; intros result s r s' Hidle H; simpl in *.
  - inversion H; subst. eauto.
  - apply andb_prop in Hidle as [Hst Hrest].
    destruct n as [| n].
    + inversion H; subst. auto.
    + destruct st; try discriminate; simpl in H.
      * change (while_for (eval_stmt ab (S n)) rest
                  (result ++ [RMark (Mark Pass None)]) s = (r, s')) in H.
        eapply IH; eauto.
      * inversion H; subst. eauto.
Qed.

Lemma eval_while_idle ab n0 test body s t s0 :
  call_free test = true ->
  eval_expr ab n0 test s = (Ok t, s0) -> eq_True t = true ->
  forallb idle body = true ->
  forall fuel result,
    eval_while ab fuel test body result s = (OutOfFuel, s).
Proof.
  intros Hcf Et Ht Hidle.
  induction fuel as [| n IH]; intros result; [reflexivity |].
  rewrite eval_while_S. unfold bind at 1.
  destruct (eval_expr ab n test s) as [r s1] eqn:En.
  assert (s1 = s) by (eapply call_free_pure; eauto). subst s1.
  assert (Hr : r = OutOfFuel \/ r = Ok t).
  { destruct r as [t' | e |]; auto; right.
    - pose proof (eval_expr_fuel_mono ab n (Nat.max n n0) test
                    (Nat.le_max_l _ _) _ _ _ En ltac:(discriminate)) as H1.
      pose proof (eval_expr_fuel_mono ab n0 (Nat.max n n0) test
                    (Nat.le_max_r _ _) _ _ _ Et ltac:(discriminate)) as H2.
      congruence.
    - pose proof (eval_expr_fuel_mono ab n (Nat.max n n0) test
                    (Nat.le_max_l _ _) _ _ _ En ltac:(discriminate)) as H1.
      pose proof (eval_expr_fuel_mono ab n0 (Nat.max n n0) test
                    (Nat.le_max_r _ _) _ _ _ Et ltac:(discriminate)) as H2.
      congruence. }
  destruct Hr as [-> | ->]; [reflexivity |].
  rewrite Ht. unfold bind.
  destruct (while_for (eval_stmt ab n) body result s) as [x s2] eqn:Ew.
  destruct (while_for_idle _ _ _ _ _ _ _ Hidle Ew) as (-> & [-> | (result' & ->)]);
    [reflexivity | apply IH].
Qed.

(** X5. A while statement never returns when its test is without a call
    and equal to [True] in the state at hand and its body holds nothing
    but [pass] and [continue] statements (or nothing at all): with every
    amount of fuel the evaluation is still running, in an unchanged
    state. *)
Theorem while_with_idle_body_never_returns ab n0 test body s t s0 :
  call_free test = true ->
  eval_expr ab n0 test s = (Ok t, s0) -> eq_True t = true ->
  forallb idle body = true ->
  forall fuel, eval_stmt ab fuel (WhileStmt test body) s = (OutOfFuel, s).
Proof.
  intros Hcf Et Ht Hidle [| fuel]; [reflexivity |].
  rewrite eval_stmt_While. eapply eval_while_idle; eauto.
Qed.

Lemma while_with_idle_body_never_returns_witness :
  eval_stmt int_binop 40
    (WhileStmt (NameConstant true) [PassStmt; ContinueStmt; PassStmt])
    init_state
  = (OutOfFuel, init_state).
Proof.
  exact (while_with_idle_body_never_returns int_binop 1 (NameConstant true)
           [PassStmt; ContinueStmt; PassStmt] init_state (VBool true) init_state
           eq_refl eq_refl eq_refl eq_refl 40).
Defined.

(** ** Errors inside if and while *)

Section Raising.
Variable ev : stmt -> M stmt_result.

Lemma if_for_raise pre : forall s rs s1 st e s2 post result,
  run_through ev interrupts pre s = Some (rs, s1) ->
  ev st s1 = (Raise e, s2) ->
  if_for ev (pre ++ st :: post) result s = (Raise e, s2).
Proof.
  induction pre as [| p pre IH]; intros s rs s1 st e s2 post result H E;
    simpl in H.
  - inversion H; subst. simpl. unfold bind. now rewrite E.
  - destruct (ev p s) as [[r0 | e0 |] s0] eqn:E0; try discriminate.
    destruct (interrupts r0) eqn:Hr0; try discriminate.
    destruct (run_through ev interrupts pre s0) as [[rs' s'] |] eqn:R;
      try discriminate.
    inversion H; subst. simpl.
    rewrite (bind_ok _ _ _ _ _ E0), Hr0. eapply IH; eauto.
Qed.

Lemma while_for_raise pre : forall s rs s1 st e s2 post result,
  run_through ev interrupts pre s = Some (rs, s1) ->
  ev st s1 = (Raise e, s2) ->
  while_for ev (pre ++ st :: post) result s = (Raise e, s2).
Proof.
  induction pre as [| p pre IH]; intros s rs s1 st e s2 post result H E;
    simpl in H.
  - inversion H; subst. simpl. unfold bind. now rewrite E.
  - destruct (ev p s) as [[r0 | e0 |] s0] eqn:E0; try discriminate.
    destruct (interrupts r0) eqn:Hr0; try discriminate.
    destruct (run_through ev interrupts pre s0) as [[rs' s'] |] eqn:R;
      try discriminate.
    inversion H; subst.
    change ((p :: pre) ++ st :: post) with (p :: (pre ++ st :: post)).
    rewrite (while_for_cons_through _ _ _ _ _ _ _ E0 Hr0). eapply IH; eauto.
Qed.
End Raising.

(** X6. Neither an if nor a while statement catches anything. An error
    that the test raises, or that a statement [st] of the branch or of the
    body raises after the statements before it ran through, is the
    outcome of the whole statement, in the state in which it was raised:
    the statements after [st] are not evaluated and the results
    accumulated so far are lost. For a while statement this holds in the
    first iteration and after any number of iterations that ran to their
    end. *)
Theorem if_and_while_pass_errors_on ab n :
  (forall test body orelse s e s1 fuel,
      eval_expr ab n test s = (Raise e, s1) -> n < fuel ->
      eval_stmt ab fuel (IfStmt test body orelse) s = (Raise e, s1))
  /\
  (forall test body orelse s t s1 pre st post rs s2 e s3 fuel,
      eval_expr ab n test s = (Ok t, s1) ->
      (if eq_True t then body else orelse) = pre ++ st :: post ->
      run_through (eval_stmt ab n) interrupts pre s1 = Some (rs, s2) ->
      eval_stmt ab n st s2 = (Raise e, s3) -> n < fuel ->
      eval_stmt ab fuel (IfStmt test body orelse) s = (Raise e, s3))
  /\
  (forall k test body s result1 s1 e s2 fuel,
      while_rounds ab n k test body [] s = Some (result1, s1) ->
      eval_expr ab n test s1 = (Raise e, s2) -> n + k + 2 <= fuel ->
      eval_stmt ab fuel (WhileStmt test body) s = (Raise e, s2))
  /\
  (forall k test pre st post s result1 s1 t s2 rs s3 e s4 fuel,
      while_rounds ab n k test (pre ++ st :: post) [] s = Some (result1, s1) ->
      eval_expr ab n test s1 = (Ok t, s2) -> eq_True t = true ->
      run_through (eval_stmt ab n) interrupts pre s2 = Some (rs, s3) ->
      eval_stmt ab n st s3 = (Raise e, s4) -> n + k + 2 <= fuel ->
      eval_stmt ab fuel (WhileStmt test (pre ++ st :: post)) s = (Raise e, s4)).
Proof.
  split; [| split; [| split]].
  - intros test body orelse s e s1 fuel Et Hfuel.
    apply (eval_stmt_fuel_mono ab (S n) fuel); [lia | | discriminate].
    rewrite eval_stmt_If. unfold bind. now rewrite Et.
  - intros test body orelse s t s1 pre st post rs s2 e s3 fuel
      Et Hb Hpre Est Hfuel.
    apply (eval_stmt_fuel_mono ab (S n) fuel); [lia | | discriminate].
    rewrite eval_stmt_If, (bind_ok _ _ _ _ _ Et), Hb.
    eapply if_for_raise; eauto.
  - intros k test body s result1 s1 e s2 fuel Hrounds Et Hfuel.
    destruct fuel as [| f]; [lia |].
    rewrite eval_stmt_While.
    eapply (while_rounds_eval ab n k _ _ _ _ _ _ Hrounds (S n)).
    + rewrite eval_while_S. unfold bind. now rewrite Et.
    + discriminate.
    + lia.
  - intros k test pre st post s result1 s1 t s2 rs s3 e s4 fuel
      Hrounds Et Ht Hpre Est Hfuel.
    destruct fuel as [| f]; [lia |].
    rewrite eval_stmt_While.
    eapply (while_rounds_eval ab n k _ _ _ _ _ _ Hrounds (S n)).
    + rewrite eval_while_S, (bind_ok _ _ _ _ _ Et), Ht. unfold bind.
      now rewrite (while_for_raise _ _ _ _ _ _ _ _ post result1 Hpre Est).
    + discriminate.
    + lia.
Qed.

Lemma if_and_while_pass_errors_on_witness :
  eval_stmt int_binop 4
    (IfStmt (NameConstant true)
       [AssignStmt (Name "x" Store) (Num 1);
        AssignStmt (Name "y" Store) (Name "missing" Load);
        AssignStmt (Name "z" Store) (Num 3)] [])
    init_state
  = (Raise (NameError "missing"),
     mkState [mkNamespace (<["x" := VInt 1]> ∅) None] 0).
Proof.
  exact (proj1 (proj2 (if_and_while_pass_errors_on int_binop 3))
           (NameConstant true)
           [AssignStmt (Name "x" Store) (Num 1);
            AssignStmt (Name "y" Store) (Name "missing" Load);
            AssignStmt (Name "z" Store) (Num 3)] []
           init_state (VBool true) init_state
           [AssignStmt (Name "x" Store) (Num 1)]
           (AssignStmt (Name "y" Store) (Name "missing" Load))
           [AssignStmt (Name "z" Store) (Num 3)]
           [RNone]
           (mkState [mkNamespace (<["x" := VInt 1]> ∅) None] 0)
           (NameError "missing")
           (mkState [mkNamespace (<["x" := VInt 1]> ∅) None] 0)
           4 eq_refl eq_refl eq_refl eq_refl ltac:(lia)).
Defined.

(** ** States that evaluation reaches *)

(** X7. Every state that a program reaches from the initial state,
    whether it ends, raises or is still running, is well formed: the
    current-namespace pointer and the namespaces that the bound closures
    hold name namespaces that exist, and every namespace is younger than
    its outer scope, so the chain of outer scopes that lookup follows is
    finite. The operators are asked only not to invent closures. *)
Theorem reachable_states_are_well_formed ab fuel prog r s' :
  (forall op a b v L,
      value_ok L a -> value_ok L b -> ab op a b = inr v -> value_ok L v) ->
  exec ab fuel prog init_state = (r, s') ->
  state_ok s'.
Proof.
  intros Hab H. eapply exec_state_ok; eauto. apply init_state_ok.
Qed.

Lemma reachable_states_are_well_formed_witness :
  state_ok
    (mkState
       [mkNamespace
          (<["f" := VFun (Closure "f" ["a"] [ReturnStmt (Some (Name "a" Load))] 1 0)]> ∅)
          None;
        mkNamespace ∅ (Some 0)] 1).
Proof.
  exact (reachable_states_are_well_formed int_binop 3
           [FunctionDef "f" ["a"] [ReturnStmt (Some (Name "a" Load))];
            AssignStmt (Name "y" Store) (CallExpr (Name "f" Load) [])]
           (Raise (TypeError "f() takes 1 positional arguments but 0 were given"))
           _ int_binop_value_ok eq_refl).
Defined.

(** X8. Evaluation never unbinds a name and never removes or re-parents a
    namespace: whatever a statement does, calls included, and however it
    ends, every namespace of the heap is still there afterwards, with the
    same outer scope, and every name it bound is still bound in it. *)
Theorem evaluation_never_unbinds ab n st s r s' :
  eval_stmt ab n st s = (r, s') -> heap_grows s s'.
Proof.
  apply (proj1 (proj2 (eval_steps_in heap_grows heap_grows_refl heap_grows_trans
                         (fun s i => heap_grows_refl (mkState (heap s) i))
                         heap_grows_ns_set heap_grows_ns_new ab n)) st).
Qed.

Lemma evaluation_never_unbinds_witness :
  heap_grows
    (mkState [mkNamespace (<["x" := VInt 1]> ∅) None] 0)
    (mkState [mkNamespace (<["x" := VInt 2]> (<["x" := VInt 1]> ∅)) None] 0).
Proof.
  exact (evaluation_never_unbinds int_binop 3
           (AssignStmt (Name "x" Store) (Num 2))
           (mkState [mkNamespace (<["x" := VInt 1]> ∅) None] 0)
           (Ok RNone) _ eq_refl).
Defined.

(** ** Binding the arguments *)

(** X9. With as many arguments as parameters and no parameter named
    twice, binding the arguments leaves the captured namespace with each
    parameter bound to the argument at its position, whatever it was
    bound to before; every other name of that namespace, its outer scope
    and every other namespace are as they were. *)
Theorem arguments_bound_by_position i params : forall args h ns,
  h !! i = Some ns ->
  length args = length params ->
  NoDup params ->
  exists ns',
    bind_args i params args h !! i = Some ns'
    /\ outerScope ns' = outerScope ns
    /\ (forall k p v, params !! k = Some p -> args !! k = Some v ->
                      bindings ns' !! p = Some v)
    /\ (forall x, ~ In x params -> bindings ns' !! x = bindings ns !! x)
    /\ (forall j, j <> i -> bind_args i params args h !! j = h !! j).
Proof.
  induction params as [| p params IH]; intros args h ns Hi Hlen Hnd.
  - destruct args; [| discriminate]. exists ns. unfold bind_args. simpl.
    repeat split; auto. intros k p v H. now rewrite lookup_nil in H.
  - destruct args as [| a args]; [discriminate |].
    apply NoDup_cons in Hnd as [Hp Hnd].
    assert (Hi1 : ns_set i p a h !! i
                  = Some (mkNamespace (<[p := a]> (bindings ns)) (outerScope ns)))
      by now apply ns_set_lookup_eq.
    destruct (IH args (ns_set i p a h) _ Hi1 ltac:(simpl in Hlen; lia) Hnd)
      as (ns' & Hns' & Ho & Hb & Hother & Hne).
    exists ns'. change (bind_args i (p :: params) (a :: args) h)
      with (bind_args i params args (ns_set i p a h)).
    split; [exact Hns' |]. split; [exact Ho |]. split; [| split].
    + intros [| k] q v Hq Hv; simpl in Hq, Hv.
      * inversion Hq; inversion Hv; subst.
        rewrite Hother by (rewrite <- list_elem_of_In; exact Hp).
        simpl. apply lookup_insert_eq.
      * eauto.
    + intros x Hx. rewrite Hother by (intros Hin; apply Hx; now right).
      simpl. apply lookup_insert_ne. intros ->. apply Hx. now left.
    + intros j Hj. rewrite Hne by exact Hj. apply ns_set_lookup_ne. congruence.
Qed.

Lemma arguments_bound_by_position_witness :
  exists ns',
    bind_args 1 ["a"; "b"] [VInt 1; VInt 2]
      [mkNamespace ∅ None; mkNamespace (<["a" := VInt 9]> ∅) (Some 0)] !! 1
    = Some ns'
    /\ outerScope ns' = Some 0
    /\ bindings ns' !! "a" = Some (VInt 1)
    /\ bindings ns' !! "b" = Some (VInt 2).
Proof.
  destruct (arguments_bound_by_position 1 ["a"; "b"] [VInt 1; VInt 2]
              [mkNamespace ∅ None; mkNamespace (<["a" := VInt 9]> ∅) (Some 0)]
              (mkNamespace (<["a" := VInt 9]> ∅) (Some 0))
              eq_refl eq_refl
              ltac:(repeat constructor; simpl; rewrite ?list_elem_of_In;
                    simpl; intuition discriminate))
    as (ns' & H1 & H2 & H3 & _).
  exists ns'. split; [exact H1 |]. split; [exact H2 |].
  split; [apply (H3 0) | apply (H3 1)]; reflexivity.
Defined.

(** ** What a call leaves visible *)

Lemma ns_get_agree h h' x nc L :
  heap_wf h ->
  (forall j, j < nc -> j < L -> h' !! j = h !! j) ->
  forall d d' p, p < d -> p < d' -> p < nc -> p < L ->
                 ns_get d' h' p x = ns_get d h p x.
Proof.
  intros Hwf Hagree. induction d as [| d IH]; intros d' p Hd Hd' Hp HL; [lia |].
  destruct d' as [| d']; [lia |]. simpl.
  rewrite (Hagree p Hp HL).
  destruct (h !! p) as [ns |] eqn:Hi; [| reflexivity].
  destruct (bindings ns !! x); [reflexivity |].
  destruct (outerScope ns) as [o |] eqn:Ho; [| reflexivity].
  pose proof (Hwf _ _ _ Hi Ho). apply IH; lia.
Qed.

(** X11. Names bound inside a function are invisible after the call: when
    a call whose body calls nothing returns, every name resolves from the
    namespace in which the function was defined, which is current again,
    exactly as it did before the call, to the same value or not at all.
    The heap is one where namespaces are younger than their outer scopes,
    and the captured namespace is younger than the defining one, as a
    definition makes it. *)
Theorem call_is_invisible_from_defining_scope ab n c args s v s' x :
  heap_wf (heap s) ->
  previousNamespace c < namespace c ->
  previousNamespace c < length (heap s) ->
  forallb stmt_quiet (fbody c) = true ->
  container (eval_stmt ab n) (eval_expr ab n) c args s = (Ok v, s') ->
  CurrentNamespace s' = previousNamespace c
  /\ resolve s' x
     = ns_get (length (heap s)) (heap s) (previousNamespace c) x.
Proof.
  intros Hwf Hyoung Hprev Hq H.
  pose proof (container_ok_pointer _ _ _ _ _ _ _ H) as Hp.
  destruct (container_frame ab n c args s _ s' Hq H)
    as (Hl & Hf).
  split; [exact Hp |]. unfold resolve. rewrite Hp.
  apply (ns_get_agree (heap s) (heap s') x (namespace c) (length (heap s)));
    auto; try lia.
  intros j Hj HL. apply Hf; lia.
Qed.

Lemma call_is_invisible_from_defining_scope_witness :
  resolve
    (mkState [mkNamespace (<["x" := VInt 1]> ∅) None;
              mkNamespace (<["x" := VInt 5]> (<["a" := VInt 4]> ∅)) (Some 0)] 0)
    "x"
  = Some (VInt 1).
Proof.
  refine (proj2 (call_is_invisible_from_defining_scope int_binop 3
           (Closure "f" ["a"]
              [AssignStmt (Name "x" Store) (AddOp (Name "a" Load) (Num 1));
               ReturnStmt (Some (Name "x" Load))] 1 0)
           [VInt 4]
           (mkState [mkNamespace (<["x" := VInt 1]> ∅) None;
                     mkNamespace ∅ (Some 0)] 0)
           (VInt 5) _ "x" _ ltac:(simpl; lia) ltac:(simpl; lia) eq_refl eq_refl)).
  intros [| [| i]] ns o Hi Ho; simpl in Hi; inversion Hi; subst;
    simpl in Ho; inversion Ho; subst. lia.
Defined.

(** ** What a function body sees *)

Lemma ns_get_after_definition h p name clo new x :
  heap_wf h -> x <> name ->
  forall d q, q < length h ->
    ns_get d (ns_set p name clo (h ++ [new])) q x = ns_get d h q x.
Proof.
  intros Hwf Hx. induction d as [| d IH]; intros q Hq; [reflexivity |].
  cbn [ns_get].
  destruct (lookup_lt_is_Some_2 h q Hq) as [ns Hns]. rewrite Hns.
  assert (Hrec : match outerScope ns with
                 | Some o => ns_get d (ns_set p name clo (h ++ [new])) o x
                 | None => None
                 end
                 = match outerScope ns with
                   | Some o => ns_get d h o x
                   | None => None
                   end).
  { destruct (outerScope ns) as [o |] eqn:Ho; [| reflexivity].
    apply IH. pose proof (Hwf _ _ _ Hns Ho). lia. }
  destruct (decide (p = q)) as [-> | Hpq].
  - rewrite (ns_set_lookup_eq q name clo (h ++ [new]) ns)
      by (now rewrite lookup_app_l).
    cbn [bindings outerScope]. rewrite lookup_insert_ne by congruence.
    destruct (bindings ns !! x); [reflexivity | exact Hrec].
  - rewrite ns_set_lookup_ne by exact Hpq.
    rewrite (lookup_app_l h [new] q Hq), Hns.
    destruct (bindings ns !! x); [reflexivity | exact Hrec].
Qed.

Lemma ns_get_own d h i ns x v :
  h !! i = Some ns -> bindings ns !! x = Some v -> 0 < d ->
  ns_get d h i x = Some v.
Proof. intros Hi Hx Hd. destruct d; [lia |]. simpl. now rewrite Hi, Hx. Qed.

(** X12. Closure capture. In a heap where namespaces are younger than
    their outer scopes, once a function definition is evaluated, the
    namespace of the new function sees its own name, bound to the closure
    just built, and every other name exactly as the defining namespace
    resolved it before the definition: all of the defining scope is
    visible to the body through the outer scope. *)
Theorem definition_site_is_visible_in_body ab n name args body s s' :
  heap_wf (heap s) ->
  CurrentNamespace s < length (heap s) ->
  eval_stmt ab (S n) (FunctionDef name args body) s = (Ok RNone, s') ->
  resolve (mkState (heap s') (length (heap s))) name
  = Some (VFun (Closure name args body (length (heap s)) (CurrentNamespace s)))
  /\ forall x, x <> name ->
       resolve (mkState (heap s') (length (heap s))) x = resolve s x.
Proof.
  intros Hwf Hcur H. rewrite FunctionDef_eval in H. inversion H; subst. clear H.
  unfold resolve. cbn [heap CurrentNamespace].
  set (p := CurrentNamespace s) in *. set (L := length (heap s)) in *.
  set (new := mkNamespace ∅ (Some p)).
  set (clo := VFun (Closure name args body L p)).
  assert (Hlen : length (ns_set p name clo (heap s ++ [new])) = S L).
  { rewrite ns_set_length, length_app. simpl. lia. }
  assert (HL : ns_set p name clo (heap s ++ [new]) !! L = Some new).
  { rewrite ns_set_lookup_ne by lia.
    rewrite lookup_app_r by (unfold L; lia).
    replace (L - length (heap s)) with 0 by (unfold L; lia). reflexivity. }
  rewrite Hlen. cbn [ns_get]. rewrite HL. cbn [bindings outerScope new].
  rewrite !lookup_empty. split.
  - destruct (lookup_lt_is_Some_2 (heap s) p Hcur) as [ns Hns].
    apply (ns_get_own _ _ _
             (mkNamespace (<[name := clo]> (bindings ns)) (outerScope ns)));
      [| apply lookup_insert_eq | lia].
    apply ns_set_lookup_eq. now rewrite lookup_app_l.
  - intros x Hx. rewrite lookup_empty.
    now apply ns_get_after_definition.
Qed.

Lemma definition_site_is_visible_in_body_witness :
  resolve
    (mkState
       [mkNamespace
          (<["f" := VFun (Closure "f" [] [PassStmt] 1 0)]> (<["x" := VInt 1]> ∅))
          None;
        mkNamespace ∅ (Some 0)] 1) "x"
  = Some (VInt 1).
Proof.
  refine (proj2 (definition_site_is_visible_in_body int_binop 0 "f" [] [PassStmt]
                   (mkState [mkNamespace (<["x" := VInt 1]> ∅) None] 0)
                   _ _ ltac:(simpl; lia) eq_refl)
            "x" ltac:(discriminate)).
  intros [| i] ns o Hi Ho; simpl in Hi; inversion Hi; subst. discriminate.
Defined.

(** ** Augmented assignment reads through the chain and writes here *)

Lemma AugAssignStmt_init_node name value sym op :
  In (sym, op) aug_ops ->
  AugAssignStmt_init name value sym
  = Some (AssignStmt (Name name Store) (BinOp op (Name name Load) value)).
Proof.
  intros Hin. simpl in Hin.
  repeat (destruct Hin as [Hin | Hin]; [inversion Hin; subst; reflexivity |]).
  contradiction.
Qed.

(** X13. An augmented assignment [name op= value] reads [name] through
    the chain of namespaces and writes into the current one. If [name] is
    bound nowhere in the chain, the statement raises the unbound-name error
    and changes nothing; [value] is not evaluated. If [name] resolves to
    [a], and [value], which is without a call, evaluates to [b], the
    current namespace gets [name] bound to [a op b], also when [a] came
    from an outer namespace, which then keeps its own binding. *)
Theorem AugAssignStmt_reads_chain_writes_current ab n name value sym op st s :
  In (sym, op) aug_ops ->
  AugAssignStmt_init name value sym = Some st ->
  (resolve s name = None ->
     eval_stmt ab (S (S (S n))) st s = (Raise (NameError name), s))
  /\
  (forall a b v,
     resolve s name = Some a ->
     call_free value = true ->
     eval_expr ab (S n) value s = (Ok b, s) ->
     ab op a b = inr v ->
     eval_stmt ab (S (S (S n))) st s
     = (Ok RNone,
        mkState (ns_set (CurrentNamespace s) name v (heap s))
          (CurrentNamespace s))).
Proof.
  intros Hin Hst. rewrite (AugAssignStmt_init_node _ _ _ _ Hin) in Hst.
  inversion Hst; subst. clear Hst. split.
  - intros Hres. rewrite eval_stmt_Assign.
    erewrite bind_ok by reflexivity.
    rewrite eval_expr_BinOp. unfold bind.
    change (eval_expr ab (S n) (Name name Load) s) with (lookup_current name s).
    unfold lookup_current. unfold resolve in Hres. now rewrite Hres.
  - intros a b v Hres Hcf Ev Hab. rewrite eval_stmt_Assign.
    erewrite bind_ok by reflexivity.
    erewrite bind_ok.
    2:{ rewrite eval_expr_BinOp. erewrite bind_ok.
        2:{ change (eval_expr ab (S n) (Name name Load) s)
              with (lookup_current name s).
            unfold lookup_current. unfold resolve in Hres. now rewrite Hres. }
        rewrite (bind_ok _ _ _ _ _ Ev), Hab. reflexivity. }
    reflexivity.
Qed.

Lemma AugAssignStmt_reads_chain_writes_current_witness :
  eval_stmt int_binop 3
    (AssignStmt (Name "x" Store) (BinOp Add (Name "x" Load) (Num 2)))
    (mkState [mkNamespace (<["x" := VInt 1]> ∅) None; mkNamespace ∅ (Some 0)] 1)
  = (Ok RNone,
     mkState [mkNamespace (<["x" := VInt 1]> ∅) None;
              mkNamespace (<["x" := VInt 3]> ∅) (Some 0)] 1).
Proof.
  exact (proj2 (AugAssignStmt_reads_chain_writes_current int_binop 0 "x" (Num 2)
                  "+=" Add _
                  (mkState [mkNamespace (<["x" := VInt 1]> ∅) None;
                            mkNamespace ∅ (Some 0)] 1)
                  ltac:(simpl; tauto) eq_refl)
           (VInt 1) (VInt 2) (VInt 3) eq_refl eq_refl eq_refl eq_refl).
Defined.

(** ** The interactive shell *)

Lemma append_assoc (s1 s2 s3 : string) :
  (s1 +:+ s2) +:+ s3 = s1 +:+ (s2 +:+ s3).
Proof.
  induction s1 as [| a s1 IH]; [reflexivity |].
  change (String a ((s1 +:+ s2) +:+ s3) = String a (s1 +:+ (s2 +:+ s3))).
  now rewrite IH.
Qed.

Lemma append_empty_r (s : string) : s +:+ "" = s.
Proof.
  induction s as [| a s IH]; [reflexivity |].
  change (String a (s +:+ "") = String a s). now rewrite IH.
Qed.

Lemma loop_pending {ParseTree Ast} (fe : Frontend ParseTree Ast) a :
  forall lines pending,
    all_unfinished fe pending lines = true ->
    loop fe (mkShell a pending true) lines
    = (mkShell a (pending +:+ text_of lines) true,
       replicate (length lines) "... ").
Proof.
  induction lines as [| line rest IH]; intros pending H; simpl in H.
  - simpl. now rewrite append_empty_r.
  - apply andb_prop in H as [H1 H2].
    cbn [loop]. unfold loop_iteration. cbn [readMore single_input args].
    destruct (single_input_of fe (pending +:+ line)) as [e | [] errs buf tree];
      try discriminate.
    rewrite (IH _ H2). cbn [length replicate app]. unfold text_of. cbn [foldr].
    now rewrite append_assoc.
Qed.

(** X14. Multi-line input. From the [>>>] prompt, as long as the parser
    reports the text read so far as unfinished, the shell keeps it: it
    prompts with [...] for each further line and, after the lines
    [line :: rest], holds their whole text as the pending input, to which
    the next line is appended before the parser sees it. *)
Theorem shell_accumulates_unfinished_input {ParseTree Ast}
    (fe : Frontend ParseTree Ast) a old line rest next :
  all_unfinished fe "" (line :: rest) = true ->
  loop fe (mkShell a old false) (line :: rest)
  = (mkShell a (text_of (line :: rest)) true,
     ">>> " :: replicate (length rest) "... ")
  /\ fst (loop_iteration fe (mkShell a (text_of (line :: rest)) true) next)
     = mkShell a (text_of (line :: rest) +:+ next)
         (match single_input_of fe (text_of (line :: rest) +:+ next) with
          | Recognition _ => true
          | Listened input_unfinished _ _ _ => input_unfinished
          end).
Proof.
  intros H. cbn [all_unfinished] in H.
  change ("" +:+ line) with line in H.
  apply andb_prop in H as [H1 H2]. split.
  - cbn [loop]. unfold loop_iteration at 1. cbn [readMore single_input args].
    destruct (single_input_of fe line) as [e | [] errs buf tree];
      try discriminate.
    now rewrite (loop_pending fe a rest line H2).
  - unfold loop_iteration. cbn [readMore single_input args].
    destruct (single_input_of fe (text_of (line :: rest) +:+ next))
      as [e | [] errs buf tree]; try reflexivity.
    now destruct (Nat.ltb 0 errs).
Qed.

Lemma shell_accumulates_unfinished_input_witness :
  loop (mkFrontend unit unit
          (fun text => Listened (negb (String.eqb text "if x:y = 1z = 2end")) 0 "" tt)
          (fun _ => tt) (fun _ => "ast") (fun _ => "tree"))
    (mkShell (mkArgs false false) "old" false) ["if x:"; "y = 1"; "z = 2"]
  = (mkShell (mkArgs false false) "if x:y = 1z = 2" true,
     [">>> "; "... "; "... "])
  /\ fst (loop_iteration
            (mkFrontend unit unit
               (fun text =>
                  Listened (negb (String.eqb text "if x:y = 1z = 2end")) 0 "" tt)
               (fun _ => tt) (fun _ => "ast") (fun _ => "tree"))
            (mkShell (mkArgs false false) "if x:y = 1z = 2" true) "end")
     = mkShell (mkArgs false false) "if x:y = 1z = 2end" false.
Proof.
  exact (shell_accumulates_unfinished_input
           (mkFrontend unit unit
              (fun text =>
                 Listened (negb (String.eqb text "if x:y = 1z = 2end")) 0 "" tt)
              (fun _ => tt) (fun _ => "ast") (fun _ => "tree"))
           (mkArgs false false) "old" "if x:" ["y = 1"; "z = 2"] "end" eq_refl).
Defined.

(** X15. A finished input is dropped. When the parser reports the text as
    finished, with or without errors, the shell prints the buffered
    errors if there are any, and in that case neither the tree nor the
    AST, and the line read next starts a new input at the [>>>] prompt:
    the parser sees that line alone. *)
Theorem shell_starts_anew_after_finished_input {ParseTree Ast}
    (fe : Frontend ParseTree Ast) sh line errs buf tree next :
  single_input_of fe (if readMore sh then single_input sh +:+ line else line)
  = Listened false errs buf tree ->
  let '(sh1, out1) := loop_iteration fe sh line in
  let '(sh2, out2) := loop_iteration fe sh1 next in
  readMore sh1 = false
  /\ single_input sh2 = next
  /\ hd_error out2 = Some ">>> "
  /\ (0 < errs ->
        out1 = [if readMore sh then "... " else ">>> "; print buf]).
Proof.
  intros H. unfold loop_iteration at 1. rewrite H.
  destruct (Nat.ltb 0 errs) eqn:E.
  - unfold loop_iteration. cbn [readMore single_input args].
    destruct (single_input_of fe next) as [e | [] errs' buf' tree'];
      try (destruct (Nat.ltb 0 errs')); repeat split; reflexivity.
  - unfold loop_iteration. cbn [readMore single_input args].
    apply Nat.ltb_ge in E.
    destruct (single_input_of fe next) as [e | [] errs' buf' tree'];
      try (destruct (Nat.ltb 0 errs')); repeat split; try reflexivity; lia.
Qed.

Lemma shell_starts_anew_after_finished_input_witness :
  let fe := mkFrontend unit unit
              (fun text => Listened false 1 "line 1: mismatched input" tt)
              (fun _ => tt) (fun _ => "ast") (fun _ => "tree") in
  let '(sh1, out1) :=
    loop_iteration fe (mkShell (mkArgs true true) "x = (" true) "1 +" in
  let '(sh2, out2) := loop_iteration fe sh1 "y = 2" in
  readMore sh1 = false
  /\ single_input sh2 = "y = 2"
  /\ hd_error out2 = Some ">>> "
  /\ (0 < 1 -> out1 = ["... "; print "line 1: mismatched input"]).
Proof.
  exact (shell_starts_anew_after_finished_input
           (mkFrontend unit unit
              (fun text => Listened false 1 "line 1: mismatched input" tt)
              (fun _ => tt) (fun _ => "ast") (fun _ => "tree"))
           (mkShell (mkArgs true true) "x = (" true) "1 +"
           1 "line 1: mismatched input" tt "y = 2" eq_refl).
Defined.
